(** * Range specifications and batch selection of the mesh conversion script

    Sources embedded here:
    - [source/isaaclab/isaaclab/utils/io/range.py]: [split_prefix_num],
      [expand_range];
    - [scripts/mad3d/convert_mesh_to_usd_occ.py]: the same two functions
      (lines 130-159, textually the same bodies) and [main] (lines 161-199).

    Conventions of the embedding.
    - A Python [str] is a [string]: a sequence of code points below 256.  On
      that range the class [\d] of the [re] module is exactly ['0'..'9'] and
      [str.isspace] holds of the twelve characters listed in [is_space].
    - A Python [int] is a [Z]; [len] results and widths are [nat].  The
      interpreter refuses to convert between an [int] and a [str] of more
      than [int_max_str_digits] decimal digits, 4300 unless reconfigured:
      [int] is modelled with that refusal.  [str] is only applied, by
      [expand_range], to numbers below a right endpoint that [int] has
      accepted, which have at most that many digits (lemma
      [expand_range_str_within_limit]); its refusal is therefore left out.
    - A call that may raise returns a [result]; [Raise e] is the exception
      leaving the call.
    - Library primitives ([re.search], [int], [str], [str.zfill], [range],
      [str.split], [str.strip], slicing) are written out in [Module Py] after
      the documented behaviour of CPython; [os.path], [glob], [tqdm.write]
      and the conversion collaborator are the fields of the class
      [Platform]. *)

From stdpp Require Import base tactics option list numbers strings gmap.
From Stdlib Require Import ZArith Lia Ascii.

Local Open Scope Z_scope.

(** ** Results of calls that may raise *)

Inductive result (E A : Type) : Type :=
| Ok (a : A)
| Raise (e : E).
Arguments Ok {E A} a.
Arguments Raise {E A} e.

Global Instance result_ret {E} : MRet (result E) := fun _ a => Ok a.
Global Instance result_bind {E} : MBind (result E) := fun _ _ f m =>
  match m with
  | Ok a => f a
  | Raise e => Raise e
  end.

Definition returns {E A} (r : result E A) : Prop := ∃ a, r = Ok a.
Definition raises {E A} (r : result E A) : Prop := ∃ e, r = Raise e.

(** ** Python primitives used by the two files *)

Module Py.

(** The line feed, ['\n']. *)
Definition LF : ascii := "010"%char.

Fixpoint len (s : string) : nat :=
  match s with
  | EmptyString => 0%nat
  | String _ r => S (len r)
  end.

(** [s[:n]] for [0 <= n]. *)
Fixpoint slice_to (n : nat) (s : string) : string :=
  match n, s with
  | S k, String c r => String c (slice_to k r)
  | _, _ => EmptyString
  end.

(** [s[n:]] for [0 <= n]. *)
Fixpoint slice_from (n : nat) (s : string) : string :=
  match n, s with
  | S k, String _ r => slice_from k r
  | _, _ => s
  end.

(** [s[:-k]] for [0 < k]: all but the last [k] characters. *)
Definition slice_to_neg (k : nat) (s : string) : string :=
  slice_to (len s - k) s.

(** [c * n] for a one-character string [c]. *)
Fixpoint repeat_char (c : ascii) (n : nat) : string :=
  match n with
  | O => EmptyString
  | S k => String c (repeat_char c k)
  end.

(** [\d] on code points below 256: the digits [0] to [9].  The decimal
    digits of other scripts, which [\d] and [int] accept as well, lie above
    255 and are outside this model of [str]. *)
Definition is_digit (c : ascii) : bool :=
  let n := N_of_ascii c in ((48 <=? n) && (n <=? 57))%N.

Definition digit_value (c : ascii) : Z := Z.of_N (N_of_ascii c) - 48.

Fixpoint all_digits (s : string) : bool :=
  match s with
  | EmptyString => true
  | String c r => is_digit c && all_digits r
  end.

Fixpoint int_acc (acc : Z) (ds : string) : Z :=
  match ds with
  | EmptyString => acc
  | String c r => int_acc (10 * acc + digit_value c) r
  end.

(** [sys.get_int_max_str_digits()], at its default. *)
Definition int_max_str_digits : nat := 4300.
Global Arguments int_max_str_digits : simpl never.

(** [int(ds)] on a non-empty run of digits, the only literals the sources
    pass to it: the number written by [ds], leading zeros allowed, and
    [None], the [ValueError] of [int], when [ds] has more than
    [int_max_str_digits] digits.  On any other string the model stops with
    [None]. *)
Definition int (ds : string) : option Z :=
  match ds with
  | EmptyString => None
  | _ =>
      if all_digits ds && (len ds <=? int_max_str_digits)%nat
      then Some (int_acc 0 ds)
      else None
  end.

Definition digit_char (d : Z) : ascii := ascii_of_N (Z.to_N (48 + d)).

(** Decimal digits of [n >= 0], most significant first; [fuel] bounds the
    number of digits. *)
Fixpoint digits_of (fuel : nat) (n : Z) (acc : string) : string :=
  match fuel with
  | O => acc
  | S f =>
      if n <? 10 then String (digit_char n) acc
      else digits_of f (n / 10) (String (digit_char (n mod 10)) acc)
  end.

(** [str(i)] for an [int] of at most [int_max_str_digits] digits. *)
Definition str (i : Z) : string :=
  if i <? 0
  then String "-" (digits_of (S (Z.to_nat (Z.log2 (- i)))) (- i) EmptyString)
  else digits_of (S (Z.to_nat (Z.log2 i))) i EmptyString.

(** [s.zfill(width)]: pad with ['0'] on the left up to [width]; a leading
    sign stays in front of the padding; a string already that long is
    returned as it is. *)
Definition zfill (width : nat) (s : string) : string :=
  if (width <=? len s)%nat then s
  else
    let fill := repeat_char "0" (width - len s) in
    match s with
    | String c r =>
        if (Ascii.eqb c "+" || Ascii.eqb c "-")%bool
        then String c (fill +:+ r)
        else fill +:+ s
    | EmptyString => fill
    end.

(** [range(a, b)]. *)
Definition range (a b : Z) : list Z := seqZ a (b - a).

(** [s.startswith(sub)]. *)
Fixpoint startswith (sub s : string) : bool :=
  match sub, s with
  | EmptyString, _ => true
  | String a sub', String b s' => Ascii.eqb a b && startswith sub' s'
  | String _ _, EmptyString => false
  end.

(** [s.find(sub)]: the lowest index at which [sub] occurs. *)
Fixpoint find (sub s : string) : option nat :=
  if startswith sub s then Some 0%nat
  else
    match s with
    | EmptyString => None
    | String _ r => S <$> find sub r
    end.

(** [sub in s]. *)
Definition contains (sub s : string) : bool :=
  match find sub s with
  | Some _ => true
  | None => false
  end.

(** [s.split(sep, 1)]: at most one cut, at the first occurrence. *)
Definition split1 (sep s : string) : list string :=
  match find sep s with
  | Some i => [slice_to i s; slice_from (i + len sep) s]
  | None => [s]
  end.

(** [s.split(sep)] for a separator of one character. *)
Fixpoint split_char (sep : ascii) (s : string) : list string :=
  match s with
  | EmptyString => [EmptyString]
  | String c r =>
      if Ascii.eqb c sep then EmptyString :: split_char sep r
      else
        match split_char sep r with
        | piece :: pieces => String c piece :: pieces
        | [] => [String c EmptyString]
        end
  end.

(** [str.isspace] of one character, on code points below 256. *)
Definition is_space (c : ascii) : bool :=
  let n := N_of_ascii c in
  (((9 <=? n) && (n <=? 13)) || ((28 <=? n) && (n <=? 32))
   || (n =? 133) || (n =? 160))%N.

Fixpoint lstrip (s : string) : string :=
  match s with
  | String c r => if is_space c then lstrip r else s
  | EmptyString => EmptyString
  end.

Fixpoint rstrip (s : string) : string :=
  match s with
  | String c r =>
      match rstrip r with
      | EmptyString => if is_space c then EmptyString else String c EmptyString
      | r' => String c r'
      end
  | EmptyString => EmptyString
  end.

(** [s.strip()]. *)
Definition strip (s : string) : string := rstrip (lstrip s).

(** *** [re.search(r'(\d+)$', s)] *)

(** The longest run of digits at the head of [s], and the rest. *)
Fixpoint span_digits (s : string) : string * string :=
  match s with
  | String c r =>
      if is_digit c then let '(ds, rest) := span_digits r in (String c ds, rest)
      else (EmptyString, s)
  | EmptyString => (EmptyString, EmptyString)
  end.

(** [$] (no MULTILINE flag) matches at the end of the string and just
    before a line feed that is the last character of the string. *)
Definition at_dollar (rest : string) : bool :=
  match rest with
  | EmptyString => true
  | String c EmptyString => Ascii.eqb c LF
  | _ => false
  end.

(** The pattern anchored at the head of [s]; the result is group 1.
    [\d+] is greedy; giving digits back cannot help, since [$] does not
    match in front of a digit. *)
Definition match_here (s : string) : option string :=
  let '(ds, rest) := span_digits s in
  match ds with
  | EmptyString => None
  | _ => if at_dollar rest then Some ds else None
  end.

(** The leftmost match: [(m.start(1), m.group(1))], or [None]. *)
Fixpoint re_search (s : string) : option (nat * string) :=
  match match_here s with
  | Some g1 => Some (0%nat, g1)
  | None =>
      match s with
      | EmptyString => None
      | String _ r =>
          match re_search r with
          | Some (i, g1) => Some (S i, g1)
          | None => None
          end
      end
  end.

End Py.

(** ** [split_prefix_num] and [expand_range] *)

Module Range.
Import Py.

(** The [ValueError]s of the two functions, by message. *)
Inductive message : Type :=
| RangeMustContainDots            (* "Range must contain '..'" *)
| BothEndpointsMustEndWithNumber  (* "Both endpoints must end with a number" *)
| PrefixesDiffer (p1 p2 : string) (* f"Prefixes differ: {p1!r} vs {p2!r}" *)
| StartIsGreaterThanEnd           (* "Start is greater than end" *)
| InvalidIntLiteral (s : string)  (* int() refusing its argument *)
| CannotUnpack (n : nat).         (* [left, right = ...] on n pieces *)

Inductive exn : Type := ValueError (m : message).

Definition int_or_raise (ds : string) : result exn Z :=
  match int ds with
  | Some n => Ok n
  | None => Raise (ValueError (InvalidIntLiteral ds))
  end.

Definition split_prefix_num (s : string)
  : result exn (string * option Z * nat) :=
  match re_search s with
  | None => Ok (s, None, 0%nat)
  | Some (start1, group1) =>
      num ← int_or_raise group1;
      let prefix := slice_to start1 s in
      let width := len group1 in
      Ok (prefix, Some num, width)
  end.

Definition expand_range (spec : string) : result exn (list string) :=
  if negb (contains ".." spec) then Raise (ValueError RangeMustContainDots)
  else
    match split1 ".." spec with
    | [left_; right_] =>
        '(p1, n1, w1) ← split_prefix_num left_;
        '(p2, n2, w2) ← split_prefix_num right_;
        match n1, n2 with
        | Some n1, Some n2 =>
            if negb (String.eqb p1 p2)
            then Raise (ValueError (PrefixesDiffer p1 p2))
            else if n1 >? n2 then Raise (ValueError StartIsGreaterThanEnd)
            else
              let width := (w1 `max` w2)%nat in
              Ok ((fun i => p1 +:+ zfill width (str i)) <$> range n1 n2)
        | _, _ => Raise (ValueError BothEndpointsMustEndWithNumber)
        end
    | pieces => Raise (ValueError (CannotUnpack (length pieces)))
    end.

End Range.

(** ** [main] of the conversion script *)

Module Convert.
Import Py Range.

(** [args_cli], as far as [main] reads it. *)
Record Args : Type := {
  input : string;
  output : string;
  subdirs : option string;  (* [None] is the default of [--subdirs] *)
}.

(** What [main] passes to [print]. *)
Inductive Line : Type :=
| LookingInSubdirectories (allowed : gset string)
    (* f"Looking in subdirectories: {allowed}" *)
| NumberOfFilesToConvert (total : nat).
    (* f"Number of files to convert: {total}" *)

(** The process as the collaborators see and change it: the attribute
    [builtins.print] and the rest (simulation application, file system). *)
Record World (Printer Host : Type) : Type := {
  builtins_print : Printer;
  host : Host;
}.
Arguments builtins_print {Printer Host} w.
Arguments host {Printer Host} w.

(** The platform and the collaborators of [main]. *)
Class Platform : Type := {
  os_sep : ascii;                          (* os.sep *)
  relpath : string → string → string;      (* os.path.relpath(path, start) *)
  join : string → string → string;         (* os.path.join(a, b) *)
  split_tail : string → string;            (* os.path.split(p)[-1] *)
  glob : string → list string;             (* glob.glob(pattern, recursive=True) *)
  Printer : Type;                          (* callables bound to builtins.print *)
  tqdm_write : Printer;                    (* tqdm.write *)
  Host : Type;
  Failure : Type;                          (* exceptions of the collaborators *)
  (* calling a printer on a line *)
  call : Printer → Line → World Printer Host → result Failure () * World Printer Host;
  (* run_convert(mesh_path, dest_path), lines 76-128: calls into the
     conversion framework only *)
  run_convert :
    string → string → World Printer Host → result Failure () * World Printer Host;
}.

Section Main.
Context `{Platform}.

Inductive exception : Type :=
| InvalidSpec (e : exn)          (* raised by expand_range *)
| ItemFailure (f : Failure).     (* raised by a collaborator *)

(** What [main] does that is observed from outside, in order. *)
Inductive Event : Type :=
| AssignPrint (p : Printer)                 (* builtins.print = p *)
| CallPrint (p : Printer) (l : Line)        (* print(l), bound to p *)
| CallRunConvert (mesh_path dest_path : string).

Record State : Type := {
  world : World Printer Host;
  trace : list Event;
}.

Definition M (A : Type) : Type := State → result exception A * State.

Definition ret {A} (a : A) : M A := fun st => (Ok a, st).

Definition bind {A B} (m : M A) (k : A → M B) : M B := fun st =>
  match m st with
  | (Ok a, st') => k a st'
  | (Raise e, st') => (Raise e, st')
  end.

Global Instance M_ret : MRet M := @ret.
Global Instance M_bind : MBind M := fun A B k m => bind m k.

(** [try: body finally: handler]. *)
Definition try_finally {A} (body : M A) (handler : M ()) : M A := fun st =>
  let '(r, st1) := body st in
  match handler st1 with
  | (Ok _, st2) => (r, st2)
  | (Raise e, st2) => (Raise e, st2)
  end.

Definition lift {A} (r : result exn A) : M A := fun st =>
  match r with
  | Ok a => (Ok a, st)
  | Raise e => (Raise (InvalidSpec e), st)
  end.

Definition log (ev : Event) (st : State) : State :=
  {| world := world st; trace := trace st ++ [ev] |}.

Definition record (ev : Event) : M () := fun st => (Ok (), log ev st).

Definition collaborate
    (f : World Printer Host → result Failure () * World Printer Host) : M () :=
  fun st =>
    let '(r, w) := f (world st) in
    let st' := {| world := w; trace := trace st |} in
    match r with
    | Ok _ => (Ok (), st')
    | Raise e => (Raise (ItemFailure e), st')
    end.

(** Reading [builtins.print]. *)
Definition get_print : M Printer := fun st =>
  (Ok (builtins_print (world st)), st).

(** [builtins.print = p]. *)
Definition set_print (p : Printer) : M () := fun st =>
  (Ok (),
   log (AssignPrint p)
     {| world := {| builtins_print := p; host := host (world st) |};
        trace := trace st |}).

(** [print(l)]: the name resolves to the current [builtins.print]. *)
Definition print (l : Line) : M () :=
  p ← get_print;
  record (CallPrint p l);;
  collaborate (call p l).

Definition call_run_convert (mesh_path dest_path : string) : M () :=
  record (CallRunConvert mesh_path dest_path);;
  collaborate (run_convert mesh_path dest_path).

(** [for x in xs: body(x)]. *)
Fixpoint for_each {A} (xs : list A) (body : A → M ()) : M () :=
  match xs with
  | [] => ret ()
  | x :: xs' => body x;; for_each xs' body
  end.

(** Iterating [tqdm(xs)] yields the elements of [xs] in order. *)
Definition tqdm {A} (xs : list A) : list A := xs.

Definition extensions : list string := ["*.glb"; "*.obj"; "*.fbx"].

(** Lines 164-167; [os.path.join(a, b, c)] is [join (join a b) c]. *)
Definition discover (args : Args) : list string :=
  foldl (fun meshes_path ext =>
           meshes_path ++ glob (join (join (input args) "**") ext))
        [] extensions.

(** [rel.split(os.sep)[0]]; [split] never returns an empty list. *)
Definition top_segment (rel : string) : string :=
  match split_char os_sep rel with
  | top :: _ => top
  | [] => EmptyString
  end.

(** Lines 174-179: the loop that builds [filtered]. *)
Definition filter_allowed (args : Args) (allowed : gset string)
    (meshes_path : list string) : list string :=
  foldl (fun filtered p =>
           let rel := relpath p (input args) in
           let top := top_segment rel in
           if decide (top ∈ allowed) then filtered ++ [p] else filtered)
        [] meshes_path.

(** Lines 173-180: [if allowed: ...; meshes_path = filtered]. *)
Definition filter_step (args : Args) (allowed : gset string)
    (meshes_path : list string) : list string :=
  if decide (allowed ≠ ∅) then filter_allowed args allowed meshes_path
  else meshes_path.

(** Truth value of a [str]. *)
Definition truthy (s : string) : bool :=
  match s with
  | EmptyString => false
  | _ => true
  end.

(** Lines 192-196. *)
Definition dest_path_of (args : Args) (mesh_path : string) : string :=
  let relative_path := relpath mesh_path (input args) in
  let dest_path := join (output args) relative_path in
  join (slice_to_neg 4 dest_path)
       (slice_to_neg 3 (split_tail relative_path) +:+ "usd").

(** Lines 182-199: the batch runner. *)
Definition run (args : Args) (meshes_path : list string) : M () :=
  let start := 0%nat in
  let total := length meshes_path in
  original_print ← get_print;
  set_print tqdm_write;;
  try_finally
    (print (NumberOfFilesToConvert total);;
     for_each (tqdm (drop start meshes_path)) (fun mesh_path =>
       call_run_convert mesh_path (dest_path_of args mesh_path)))
    (set_print original_print).

(** Lines 169-180: the job list, after the [--subdirs] selection. *)
Definition select (args : Args) (meshes_path : list string)
    : M (list string) :=
  match subdirs args with
  | Some s =>
      if truthy s then
        let spec := strip s in
        names ← lift (expand_range spec);
        let allowed : gset string := list_to_set names in
        print (LookingInSubdirectories allowed);;
        ret (filter_step args allowed meshes_path)
      else ret meshes_path
  | None => ret meshes_path
  end.

Definition main (args : Args) : M () :=
  let meshes_path := discover args in
  meshes_path ← select args meshes_path;
  run args meshes_path.

End Main.
End Convert.

(** ** The words of the specification

    Notions the specification uses and the code does not compute: they are
    what the functions above are compared with. *)

Module Spec.
Import Py.

(** The last character of [s] is an ASCII digit. *)
Fixpoint ends_with_digit (s : string) : bool :=
  match s with
  | EmptyString => false
  | String c r =>
      match r with
      | EmptyString => is_digit c
      | String _ _ => ends_with_digit r
      end
  end.

(** The last character of [s] is a line feed. *)
Fixpoint ends_with_LF (s : string) : bool :=
  match s with
  | EmptyString => false
  | String c r =>
      match r with
      | EmptyString => Ascii.eqb c LF
      | String _ _ => ends_with_LF r
      end
  end.

(** [digits] is the longest trailing run of ASCII digits of [s], and
    [prefix] is what stands before it. *)
Definition trailing_run (s prefix digits : string) : Prop :=
  s = prefix +:+ digits ∧ all_digits digits = true ∧ ends_with_digit prefix = false.

(** [sub] occurs in [s]. *)
Definition occurs (sub s : string) : Prop := ∃ a b, s = a +:+ sub +:+ b.

(** [lhs] and [rhs] are the two sides of the first occurrence of [sep]. *)
Definition first_cut (sep s lhs rhs : string) : Prop :=
  s = lhs +:+ sep +:+ rhs ∧
  ∀ a b, s = a +:+ sep +:+ b → (len lhs ≤ len a)%nat.

(** The structural invariants of a range specification: it is cut at its
    first [..], both sides end with a run of digits, the prefixes are the
    same string, and the left number does not exceed the right one. *)
Definition valid (spec : string) : Prop :=
  ∃ lhs rhs p d1 d2,
    first_cut ".." spec lhs rhs ∧
    trailing_run lhs p d1 ∧ trailing_run rhs p d2 ∧
    d1 ≠ "" ∧ d2 ≠ "" ∧ int_acc 0 d1 ≤ int_acc 0 d2.

(** The specification breaks one of the invariants: it holds no [..]; or,
    cut at its first [..], a side has no trailing run of digits, or the two
    prefixes differ, or the left number exceeds the right one. *)
Definition violates (spec : string) : Prop :=
  ¬ occurs ".." spec ∨
  ∃ lhs rhs p1 d1 p2 d2,
    first_cut ".." spec lhs rhs ∧
    trailing_run lhs p1 d1 ∧ trailing_run rhs p2 d2 ∧
    (d1 = "" ∨ d2 = "" ∨ p1 ≠ p2 ∨ int_acc 0 d1 > int_acc 0 d2).

(** [i] in decimal, left-padded with ['0'] to at least [width] digits. *)
Definition zero_pad (i : Z) (width : nat) : string :=
  repeat_char "0" (width - len (str i)) +:+ str i.

Section Batch.
Import Convert.
Context `{Platform}.

(** One conversion per job, one after the other, in the order of the
    list, up to the first one that fails: the outcome, the world left
    behind, and the jobs whose conversion was started. *)
Fixpoint convert_all (args : Args) (jobs : list string) (w : World Printer Host)
  : result Failure () * World Printer Host * list string :=
  match jobs with
  | [] => (Ok (), w, [])
  | job :: jobs' =>
      match run_convert job (dest_path_of args job) w with
      | (Ok _, w') =>
          let '(r, w'', started) := convert_all args jobs' w' in
          (r, w'', job :: started)
      | (Raise f, w') => (Raise f, w', [job])
      end
  end.

(** A failure of a collaborator, as it leaves [main]. *)
Definition item_outcome (r : result Failure ()) : result exception () :=
  match r with
  | Ok _ => Ok ()
  | Raise f => Raise (ItemFailure f)
  end.

(** The first path segment of a file, relative to the input root. *)
Definition top_of (args : Args) (p : string) : string :=
  top_segment (relpath p (input args)).

End Batch.

End Spec.

(** ** A small platform on which the statements below are exercised *)

Module Demo.
Import Py Convert.

(** Paths are joined with ["/"]; a path under [start] is made relative by
    dropping [start] and the separator. *)
Definition demo_relpath (path start : string) : string :=
  if startswith start path then slice_from (len start + 1) path else path.

Definition demo_split_tail (p : string) : string :=
  default EmptyString (last (split_char "/" p)).

Definition demo_glob (pattern : string) : list string :=
  if String.eqb pattern "/in/**/*.glb"
  then ["/in/000-001/a.glb"; "/in/000-007/bad.glb"; "/in/top.glb"; "/in/000-001/a.glb"]
  else if String.eqb pattern "/in/**/*.obj" then ["/in/000-002/b.obj"]
  else [].

(** Printers are numbered: [0] is the interpreter's own, [1] is
    [tqdm.write].  The host keeps the destinations written so far; the
    conversion of a file named [bad.glb] fails and, on its way, rebinds
    [builtins.print]. *)
Definition demo_run_convert (mesh_path dest_path : string) (w : World nat (list string))
  : result string () * World nat (list string) :=
  if String.eqb (demo_split_tail mesh_path) "bad.glb"
  then (Raise "Invalid mesh file path",
        {| builtins_print := 7%nat; host := host w |})
  else (Ok (), {| builtins_print := builtins_print w; host := host w ++ [dest_path] |}).

Definition platform : Platform := {|
  os_sep := "/"%char;
  relpath := demo_relpath;
  join := fun a b => a +:+ "/" +:+ b;
  split_tail := demo_split_tail;
  glob := demo_glob;
  Printer := nat;
  tqdm_write := 1%nat;
  Host := list string;
  Failure := string;
  call := fun _ _ w => (Ok (), w);
  run_convert := demo_run_convert;
|}.

Definition args (sub : option string) : Args :=
  {| input := "/in"; output := "/out"; subdirs := sub |}.

Definition initial : @State platform :=
  @Build_State platform (Build_World nat (list string) 0%nat []) [].

End Demo.

(** ** Further notions used to state properties of the two files *)

Module More.
Import Py.

(** Every character of [s] is white space. *)
Fixpoint all_space (s : string) : bool :=
  match s with
  | EmptyString => true
  | String c r => is_space c && all_space r
  end.

(** [s] does not begin with white space. *)
Definition starts_clean (s : string) : Prop :=
  match s with
  | EmptyString => True
  | String c _ => is_space c = false
  end.

End More.

(** ** [run_convert] of the conversion script (lines 70-128)

    [run_convert] is written out over the calls it makes into the
    conversion framework, which are the fields of the class [Framework]. *)

Module RunConvert.
Import Py Convert.

(** The options of [args_cli] that [run_convert] reads; [mass] is a
    [float], or [None] by default. *)
Record Options (Mass : Type) : Type := {
  mass : option Mass;
  collision_approximation : string;
  make_instanceable : bool;
}.
Arguments mass {Mass} _.
Arguments collision_approximation {Mass} _.
Arguments make_instanceable {Mass} _.

(** The arguments given to [MeshConverterCfg]. *)
Record MeshConverterCfg (Mass : Type) : Type := {
  mass_props : option Mass;       (* MassPropertiesCfg(mass=...), or None *)
  rigid_props : option ();        (* RigidBodyPropertiesCfg(), or None *)
  collision_enabled : bool;       (* CollisionPropertiesCfg(collision_enabled=...) *)
  asset_path : string;
  force_usd_conversion : bool;
  usd_dir : string;
  usd_file_name : string;
  cfg_make_instanceable : bool;
  cfg_collision_approximation : string;
}.
Arguments mass_props {Mass} _.
Arguments rigid_props {Mass} _.
Arguments collision_enabled {Mass} _.
Arguments asset_path {Mass} _.
Arguments force_usd_conversion {Mass} _.
Arguments usd_dir {Mass} _.
Arguments usd_file_name {Mass} _.
Arguments cfg_make_instanceable {Mass} _.
Arguments cfg_collision_approximation {Mass} _.

Definition MAX_LEN : Z := 8.
Definition ENV_SIZE : Z := 20.
Definition GRID_SIZE : Z := 20.

(** The framework around [run_convert]. *)
Class Framework : Type := {
  Mass : Type;                       (* float *)
  isabs : string → bool;             (* os.path.isabs *)
  abspath : string → string;         (* os.path.abspath *)
  dirname : string → string;         (* os.path.dirname *)
  basename : string → string;        (* os.path.basename *)
  Callable : Type;                   (* callables bound to builtins.print *)
  Sim : Type;                        (* simulation application, file system *)
  Fault : Type;                      (* exceptions raised inside the framework *)
  (* truth value of check_file_path(path) *)
  check_file_path : string → World Callable Sim → bool;
  (* calling a printer on one string *)
  write : Callable → string → World Callable Sim → result Fault () * World Callable Sim;
  (* print_dict(cfg.to_dict(), nesting=0) *)
  print_dict :
    MeshConverterCfg Mass → World Callable Sim → result Fault () * World Callable Sim;
  (* MeshConverterMAD3D(cfg, max_len, env_size, grid_size).usd_path *)
  MeshConverterMAD3D :
    MeshConverterCfg Mass → Z → Z → Z → World Callable Sim →
    result Fault string * World Callable Sim;
}.

Section Body.
Context `{Framework}.

Inductive failure : Type :=
| InvalidMeshFilePath (mesh_path : string)
    (* ValueError(f"Invalid mesh file path: {mesh_path}") *)
| FrameworkFault (x : Fault).

(** What [run_convert] asks of the framework, in order. *)
Inductive Effect : Type :=
| Printed (by_printer : Callable) (text : string)
| PrintedDict (cfg : MeshConverterCfg Mass)
| Converted (cfg : MeshConverterCfg Mass) (max_len env_size grid_size : Z).

(** The process, with the record of what was asked of the framework. *)
Record Process : Type := {
  sim : Sim;
  effects : list Effect;
}.

Definition R (A : Type) : Type :=
  World Callable Process → result failure A * World Callable Process.

Definition r_ret {A} (a : A) : R A := fun w => (Ok a, w).

Definition r_bind {A B} (m : R A) (k : A → R B) : R B := fun w =>
  match m w with
  | (Ok a, w') => k a w'
  | (Raise e, w') => (Raise e, w')
  end.

Global Instance R_ret : MRet R := @r_ret.
Global Instance R_bind : MBind R := fun A B k m => r_bind m k.

Definition raise {A} (e : failure) : R A := fun w => (Raise e, w).

Definition framework_view (w : World Callable Process) : World Callable Sim :=
  {| builtins_print := builtins_print w; host := sim (host w) |}.

Definition note (ev : Effect) : R () := fun w =>
  (Ok (),
   {| builtins_print := builtins_print w;
      host := {| sim := sim (host w); effects := effects (host w) ++ [ev] |} |}).

(** A call into the framework: it sees and changes the process, not the
    record. *)
Definition framework_call {A}
    (f : World Callable Sim → result Fault A * World Callable Sim) : R A :=
  fun w =>
    let '(r, v) := f (framework_view w) in
    let w' := {| builtins_print := builtins_print v;
                 host := {| sim := host v; effects := effects (host w) |} |} in
    match r with
    | Ok a => (Ok a, w')
    | Raise x => (Raise (FrameworkFault x), w')
    end.

(** [print(text)]: the name resolves to the current [builtins.print]. *)
Definition rc_print (text : string) : R () := fun w =>
  let p := builtins_print w in
  (note (Printed p text);; framework_call (write p text)) w.

(** ["-" * 80]. *)
Definition ruler : string := repeat_char "-" 80.

Definition run_convert_body (args_cli : Options Mass) (mesh_path dest_path : string)
  : R () :=
  let mesh_path := if negb (isabs mesh_path) then abspath mesh_path else mesh_path in
  fun w =>
  if negb (check_file_path mesh_path (framework_view w))
  then raise (InvalidMeshFilePath mesh_path) w
  else
    let dest_path := if negb (isabs dest_path) then abspath dest_path else dest_path in
    (rc_print dest_path;;
     let '(mass_props, rigid_props) :=
       match mass args_cli with
       | Some m => (Some m, Some ())
       | None => (None, None)
       end in
     let collision_enabled :=
       negb (String.eqb (collision_approximation args_cli) "none") in
     let mesh_converter_cfg :=
       {| mass_props := mass_props;
          rigid_props := rigid_props;
          collision_enabled := collision_enabled;
          asset_path := mesh_path;
          force_usd_conversion := true;
          usd_dir := dirname dest_path;
          usd_file_name := basename dest_path;
          cfg_make_instanceable := make_instanceable args_cli;
          cfg_collision_approximation := collision_approximation args_cli |} in
     rc_print ruler;;
     rc_print ruler;;
     rc_print ("Input Mesh file: " +:+ mesh_path);;
     rc_print "Mesh importer config:";;
     note (PrintedDict mesh_converter_cfg);;
     framework_call (print_dict mesh_converter_cfg);;
     rc_print ruler;;
     rc_print ruler;;
     note (Converted mesh_converter_cfg MAX_LEN ENV_SIZE GRID_SIZE);;
     usd_path ← framework_call
                  (MeshConverterMAD3D mesh_converter_cfg MAX_LEN ENV_SIZE GRID_SIZE);
     rc_print "Mesh importer output:";;
     rc_print ("Generated USD file: " +:+ usd_path);;
     rc_print ruler;;
     rc_print ruler) w.

End Body.

(** [main] over this [run_convert]: the platform made of the framework, of
    the path functions of [main], of [tqdm.write] and of the text of the two
    lines that [main] prints. *)
Definition platform_of `{Framework} (args_cli : Options Mass)
    (sep : ascii) (relpath_ join_ : string → string → string)
    (split_tail_ : string → string) (glob_ : string → list string)
    (tqdm_write_ : Callable) (text_of : Line → string) : Platform := {|
  os_sep := sep;
  relpath := relpath_;
  join := join_;
  split_tail := split_tail_;
  glob := glob_;
  Printer := Callable;
  tqdm_write := tqdm_write_;
  Host := Process;
  Failure := failure;
  call := fun p l => (note (Printed p (text_of l));; framework_call (write p (text_of l)));
  run_convert := run_convert_body args_cli;
|}.

End RunConvert.

(** ** Notions used to state properties of [run_convert] *)

Module RunSpec.
Import Py Convert RunConvert.

Section Words.
Context `{Framework}.

(** [p] made absolute the way [run_convert] does it. *)
Definition absolute (p : string) : string := if isabs p then p else abspath p.

(** An action that starts with a printer satisfying [Q] ends with one, and
    records only effects that satisfy [P]. *)
Definition adds {A} (Q : Callable → Prop) (P : Effect → Prop) (m : R A) : Prop :=
  ∀ w r w',
    Q (builtins_print w) → m w = (r, w') →
    Q (builtins_print w') ∧
    ∃ new, effects (host w') = effects (host w) ++ new ∧ Forall P new.

(** If [ev] is a print, it went through the printer [q]. *)
Definition printed_by (q : Callable) (ev : Effect) : Prop :=
  match ev with
  | Printed p _ => p = q
  | _ => True
  end.

(** The calls into the framework leave [builtins.print] as it is. *)
Definition keeps_print : Prop :=
  (∀ p text w, builtins_print (write p text w).2 = builtins_print w) ∧
  (∀ cfg w, builtins_print (print_dict cfg w).2 = builtins_print w) ∧
  (∀ cfg a b c w, builtins_print (MeshConverterMAD3D cfg a b c w).2 = builtins_print w).

(** What [run_convert] may ask of the converter for [mesh_path] and
    [dest_path] under the options [args_cli], starting in [w]. *)
Definition converter_request (args_cli : Options Mass) (mesh_path dest_path : string)
    (w : World Callable Process) (ev : Effect) : Prop :=
  match ev with
  | Converted cfg max_len env_size grid_size =>
      max_len = 8 ∧ env_size = 20 ∧ grid_size = 20 ∧
      asset_path cfg = absolute mesh_path ∧
      check_file_path (asset_path cfg) (framework_view w) = true ∧
      usd_dir cfg = dirname (absolute dest_path) ∧
      usd_file_name cfg = basename (absolute dest_path) ∧
      force_usd_conversion cfg = true ∧
      mass_props cfg = mass args_cli ∧
      (rigid_props cfg = None ↔ mass args_cli = None) ∧
      (collision_enabled cfg = true ↔ collision_approximation args_cli ≠ "none") ∧
      cfg_make_instanceable cfg = make_instanceable args_cli ∧
      cfg_collision_approximation cfg = collision_approximation args_cli
  | _ => True
  end.

End Words.
End RunSpec.

(** ** A small framework on which the statements about [run_convert] are
    exercised *)

Module DemoRun.
Import Py Convert RunConvert.

Definition demo_basename (p : string) : string :=
  default EmptyString (last (split_char "/" p)).

Definition demo_dirname (p : string) : string :=
  slice_to (len p - len (demo_basename p) - 1) p.

(** Paths are absolute when they begin with ["/"]; the working directory is
    ["/cwd"].  A file named [missing.glb] does not exist.  The converter
    keeps the list of the assets it was given. *)
Definition framework : Framework := {|
  Mass := nat;
  isabs := startswith "/";
  abspath := fun p => "/cwd/" +:+ p;
  dirname := demo_dirname;
  basename := demo_basename;
  Callable := nat;
  Sim := list string;
  Fault := string;
  check_file_path := fun p _ => negb (String.eqb (demo_basename p) "missing.glb");
  write := fun _ _ w => (Ok (), w);
  print_dict := fun _ w => (Ok (), w);
  MeshConverterMAD3D := fun cfg _ _ _ w =>
    (Ok (usd_dir cfg +:+ "/" +:+ usd_file_name cfg),
     {| builtins_print := builtins_print w; host := host w ++ [asset_path cfg] |});
|}.

Definition options : Options nat :=
  {| mass := Some 3%nat; collision_approximation := "convexHull";
     make_instanceable := false |}.

Definition text_of (l : Line) : string :=
  match l with
  | LookingInSubdirectories _ => "Looking in subdirectories: ..."
  | NumberOfFilesToConvert total =>
      "Number of files to convert: " +:+ str (Z.of_nat total)
  end.

Definition platform : Platform :=
  @platform_of framework options "/"%char Demo.demo_relpath
    (fun a b => a +:+ "/" +:+ b) Demo.demo_split_tail Demo.demo_glob 1%nat text_of.

Definition start : World nat (@Process framework) :=
  Build_World nat (@Process framework) 0%nat (@Build_Process framework [] []).

Definition initial : @State platform := @Build_State platform start [].

End DemoRun.

Import Py Range.

(** * Facts about the primitives *)

Section Strings.

Lemma append_cons c (s t : string) : String c s +:+ t = String c (s +:+ t).
Proof. reflexivity. Qed.

Lemma append_empty_l (t : string) : "" +:+ t = t.
Proof. reflexivity. Qed.

Lemma append_empty_r (s : string) : s +:+ "" = s.
Proof. induction s as [|c s IH]; [done | by rewrite append_cons, IH]. Qed.

Lemma append_assoc (a b c : string) : (a +:+ b) +:+ c = a +:+ (b +:+ c).
Proof. induction a as [|x a IH]; [done | rewrite !append_cons; cbn; by f_equal]. Qed.

Lemma len_append (a b : string) : len (a +:+ b) = (len a + len b)%nat.
Proof. induction a as [|x a IH]; [done | rewrite !append_cons; cbn; by f_equal]. Qed.

Lemma len_repeat_char c n : len (repeat_char c n) = n.
Proof. induction n as [|n IH]; [done | cbn; by f_equal]. Qed.

Lemma slice_to_append (a b : string) : slice_to (len a) (a +:+ b) = a.
Proof. induction a as [|x a IH]; [by destruct b | rewrite append_cons; cbn; by f_equal]. Qed.

Lemma slice_from_append (a b : string) : slice_from (len a) (a +:+ b) = b.
Proof. induction a as [|x a IH]; [by destruct b | by rewrite append_cons]. Qed.

Lemma slice_to_from (n : nat) (s : string) : slice_to n s +:+ slice_from n s = s.
Proof.
  revert s. induction n as [|n IH]; intros [|c s]; try done.
  cbn [slice_to slice_from]. rewrite append_cons. f_equal. apply IH.
Qed.

Lemma all_digits_append (a b : string) :
  all_digits (a +:+ b) = all_digits a && all_digits b.
Proof.
  induction a as [|x a IH]; [done|].
  rewrite append_cons. simpl. rewrite IH. by destruct (is_digit x).
Qed.

Lemma is_digit_value c : is_digit c = true → 0 ≤ digit_value c ≤ 9.
Proof.
  unfold is_digit, digit_value. intros Hc.
  apply andb_true_iff in Hc as [H1 H2].
  apply N.leb_le in H1, H2. lia.
Qed.

Lemma digit_char_is_digit d : 0 ≤ d ≤ 9 → is_digit (digit_char d) = true.
Proof.
  intros Hd. unfold is_digit, digit_char.
  rewrite N_ascii_embedding by lia.
  apply andb_true_iff; split; apply N.leb_le; lia.
Qed.

Lemma digit_value_char d : 0 ≤ d ≤ 9 → digit_value (digit_char d) = d.
Proof.
  intros Hd. unfold digit_value, digit_char.
  rewrite N_ascii_embedding by lia. lia.
Qed.

End Strings.

(** ** [int] and [str] *)

Section Decimal.

Lemma int_acc_append acc (a b : string) :
  int_acc acc (a +:+ b) = int_acc (int_acc acc a) b.
Proof.
  revert acc. induction a as [|x a IH]; intros acc; [done|].
  rewrite append_cons. simpl. by rewrite IH.
Qed.

Lemma int_acc_nonneg acc (ds : string) :
  all_digits ds = true → 0 ≤ acc → 0 ≤ int_acc acc ds.
Proof.
  revert acc. induction ds as [|c ds IH]; intros acc Hds Hacc; simpl in *; [done|].
  apply andb_true_iff in Hds as [Hc Hds].
  apply IH; [done|]. pose proof (is_digit_value c Hc). lia.
Qed.

Lemma int_digits (ds : string) :
  ds ≠ "" → all_digits ds = true → (len ds ≤ int_max_str_digits)%nat →
  int ds = Some (int_acc 0 ds).
Proof.
  intros Hne Hds Hlen. unfold int. destruct ds; [done|].
  rewrite Hds. by apply Nat.leb_le in Hlen as ->.
Qed.

(** [int] refuses a literal of more than [int_max_str_digits] characters. *)
Lemma int_too_long (ds : string) :
  (int_max_str_digits < len ds)%nat → int ds = None.
Proof.
  intros Hlen. unfold int. destruct ds; [done|].
  apply Nat.leb_gt in Hlen as ->. by rewrite andb_false_r.
Qed.

Lemma int_Some (ds : string) n :
  int ds = Some n →
  ds ≠ "" ∧ all_digits ds = true ∧ (len ds ≤ int_max_str_digits)%nat ∧
  n = int_acc 0 ds.
Proof.
  unfold int. destruct ds as [|c ds]; [done|].
  destruct (all_digits (String c ds)) eqn:Hall; [|done].
  destruct (len (String c ds) <=? int_max_str_digits)%nat eqn:Hlen; [|done].
  intros [= <-]. by apply Nat.leb_le in Hlen.
Qed.

Lemma digits_of_acc fuel n (acc : string) :
  digits_of fuel n acc = digits_of fuel n "" +:+ acc.
Proof.
  revert n acc. induction fuel as [|f IH]; intros n acc; simpl; [done|].
  destruct (n <? 10); [done|].
  rewrite (IH _ (String _ acc)), (IH _ (String _ "")).
  by rewrite append_assoc.
Qed.

(** With enough fuel, [digits_of] writes [n] in decimal: digits only, the
    value read back is [n], and no leading zero except for [0] itself. *)
Lemma digits_of_spec f n :
  0 ≤ n < 10 ^ Z.of_nat (S f) →
  let ds := digits_of (S f) n "" in
  all_digits ds = true ∧ int_acc 0 ds = n ∧
  ∃ c r, ds = String c r ∧ is_digit c = true ∧ (c = "0"%char → n = 0).
Proof.
  revert n. induction f as [|f IH]; intros n Hn.
  - assert ((n <? 10) = true) as Hlt by (apply Z.ltb_lt; simpl in Hn; lia).
    simpl. rewrite Hlt. simpl.
    assert (0 ≤ n ≤ 9) as Hd by (apply Z.ltb_lt in Hlt; lia).
    rewrite digit_char_is_digit, digit_value_char by done.
    split_and!; [done | lia |].
    eexists _, _; split_and!; [done | by apply digit_char_is_digit |].
    intros Hc. apply (f_equal digit_value) in Hc.
    rewrite digit_value_char in Hc by done. by vm_compute in Hc.
  - cbn zeta. change (digits_of (S (S f)) n "") with
      (if n <? 10 then String (digit_char n) ""
       else digits_of (S f) (n / 10) (String (digit_char (n mod 10)) "")).
    destruct (n <? 10) eqn:Hlt.
    + apply Z.ltb_lt in Hlt. assert (0 ≤ n ≤ 9) as Hd by lia.
      simpl. rewrite digit_char_is_digit, digit_value_char by done.
      split_and!; [done | lia |].
      eexists _, _; split_and!; [done | by apply digit_char_is_digit |].
      intros Hc. apply (f_equal digit_value) in Hc.
      rewrite digit_value_char in Hc by done. by vm_compute in Hc.
    + apply Z.ltb_ge in Hlt.
      assert (0 ≤ n / 10 < 10 ^ Z.of_nat (S f)) as Hq.
      { split; [apply Z.div_pos; lia|].
        apply Z.div_lt_upper_bound; [lia|].
        rewrite <- Z.pow_succ_r by lia.
        replace (Z.succ (Z.of_nat (S f))) with (Z.of_nat (S (S f))) by lia.
        lia. }
      destruct (IH _ Hq) as (Hall & Hval & c & r & Hcr & Hc & Hzero).
      assert (0 ≤ n mod 10 ≤ 9) as Hm by (pose proof (Z.mod_pos_bound n 10); lia).
      rewrite digits_of_acc.
      split_and!.
      * rewrite all_digits_append, Hall. simpl.
        by rewrite digit_char_is_digit.
      * rewrite int_acc_append, Hval. simpl.
        rewrite digit_value_char by done.
        pose proof (Z.div_mod n 10). lia.
      * exists c, (r +:+ String (digit_char (n mod 10)) "").
        rewrite Hcr. split_and!; [done | done |].
        intros Hc0. specialize (Hzero Hc0).
        assert (n / 10 * 10 ≤ n) by (pose proof (Z.div_mod n 10); lia).
        assert (1 ≤ n / 10); [|lia].
        apply Z.div_le_lower_bound; lia.
Qed.

Lemma str_fuel i : 0 ≤ i → i < 10 ^ Z.of_nat (S (Z.to_nat (Z.log2 i))).
Proof.
  intros Hi.
  destruct (decide (i = 0)) as [-> | Hne]; [by vm_compute|].
  pose proof (Z.log2_nonneg i).
  destruct (Z.log2_spec i) as [_ Hup]; [lia|].
  rewrite Nat2Z.inj_succ, Z2Nat.id by done.
  eapply Z.lt_le_trans; [exact Hup|].
  apply Z.pow_le_mono_l. lia.
Qed.

(** [str] of a natural number is its decimal numeral. *)
Lemma str_nonneg i :
  0 ≤ i →
  all_digits (str i) = true ∧ int_acc 0 (str i) = i ∧
  ∃ c r, str i = String c r ∧ is_digit c = true ∧ (c = "0"%char → i = 0).
Proof.
  intros Hi. unfold str.
  assert ((i <? 0) = false) as -> by (apply Z.ltb_ge; lia).
  destruct (digits_of_spec (Z.to_nat (Z.log2 i)) i) as (Hall & Hval & c & r & Hcr & Hc & Hz).
  { split; [done | by apply str_fuel]. }
  split_and!; [done | done | by eauto 6].
Qed.

(** [int] reads a numeral of [str] back, within the limit on digits. *)
Lemma int_str i :
  0 ≤ i → (len (str i) ≤ int_max_str_digits)%nat → int (str i) = Some i.
Proof.
  intros Hi Hlen. destruct (str_nonneg i Hi) as (Hall & Hval & c & r & Hcr & _).
  rewrite int_digits; [by rewrite Hval | by rewrite Hcr | done | done].
Qed.

Lemma int_acc_shift acc (ds : string) :
  int_acc acc ds = acc * 10 ^ Z.of_nat (len ds) + int_acc 0 ds.
Proof.
  revert acc. induction ds as [|c ds IH]; intros acc.
  - simpl. lia.
  - cbn [int_acc len]. rewrite (IH (10 * acc + digit_value c)), (IH (10 * 0 + digit_value c)).
    rewrite Nat2Z.inj_succ, Z.pow_succ_r by lia. lia.
Qed.

Lemma int_acc_bound (ds : string) :
  all_digits ds = true → 0 ≤ int_acc 0 ds < 10 ^ Z.of_nat (len ds).
Proof.
  induction ds as [|c ds IH]; intros Hall.
  - simpl. lia.
  - simpl in Hall. apply andb_true_iff in Hall as [Hc Hall].
    specialize (IH Hall). pose proof (is_digit_value c Hc).
    cbn [int_acc len]. rewrite int_acc_shift.
    rewrite Nat2Z.inj_succ, Z.pow_succ_r by lia. nia.
Qed.

Lemma digit_value_inj c c' : digit_value c = digit_value c' → c = c'.
Proof.
  unfold digit_value. intros Heq.
  assert (N_of_ascii c = N_of_ascii c') as HN by lia.
  by rewrite <- (ascii_N_embedding c), <- (ascii_N_embedding c'), HN.
Qed.

Lemma base_split d d' v v' P :
  0 ≤ v < P → 0 ≤ v' < P → d * P + v = d' * P + v' → d = d' ∧ v = v'.
Proof.
  intros Hv Hv' Heq.
  assert (d = d') as ->; [|lia].
  destruct (Z.lt_trichotomy d d') as [Hlt | [? | Hgt]]; [|done|].
  - assert (1 * P ≤ (d' - d) * P) by (apply Z.mul_le_mono_nonneg_r; lia). lia.
  - assert (1 * P ≤ (d - d') * P) by (apply Z.mul_le_mono_nonneg_r; lia). lia.
Qed.

(** Two runs of digits of one length that write one number are the same. *)
Lemma digits_inj (a b : string) :
  all_digits a = true → all_digits b = true → len a = len b →
  int_acc 0 a = int_acc 0 b → a = b.
Proof.
  revert b. induction a as [|c a IH]; intros [|c' b] Ha Hb Hlen Hval; try done.
  simpl in Ha, Hb. apply andb_true_iff in Ha as [Hc Ha].
  apply andb_true_iff in Hb as [Hc' Hb].
  injection Hlen as Hlen. cbn [int_acc] in Hval.
  rewrite (int_acc_shift (10 * 0 + digit_value c)),
          (int_acc_shift (10 * 0 + digit_value c')), Hlen in Hval.
  pose proof (int_acc_bound a Ha) as Hba. pose proof (int_acc_bound b Hb) as Hbb.
  rewrite Hlen in Hba.
  pose proof (is_digit_value c Hc). pose proof (is_digit_value c' Hc').
  assert (digit_value c = digit_value c' ∧ int_acc 0 a = int_acc 0 b) as [Hd Hv].
  { apply (base_split _ _ _ _ (10 ^ Z.of_nat (len b))); [done | done | lia]. }
  apply digit_value_inj in Hd as ->. f_equal. by apply IH.
Qed.

(** The numeral of a number below [10 ^ w] has at most [w] digits. *)
Lemma len_str_bound i (w : nat) :
  (0 < w)%nat → 0 ≤ i < 10 ^ Z.of_nat w → (len (str i) ≤ w)%nat.
Proof.
  intros Hw [Hi Hlt].
  destruct (decide (i = 0)) as [-> | Hne].
  { change (len (str 0)) with 1%nat. lia. }
  destruct (str_nonneg i Hi) as (Hall & Hval & c & r & Hcr & Hc & Hzero).
  rewrite Hcr in *. simpl in Hall. apply andb_true_iff in Hall as [_ Hall].
  cbn [int_acc] in Hval. rewrite int_acc_shift in Hval.
  pose proof (int_acc_bound r Hall) as Hr. pose proof (is_digit_value c Hc) as Hd.
  assert (1 ≤ digit_value c) as Hd1.
  { destruct (decide (digit_value c = 0)) as [Hc0|]; [|lia].
    assert (c = "0"%char) as -> by (apply digit_value_inj; by rewrite Hc0).
    by specialize (Hzero eq_refl). }
  cbn [len]. destruct (decide (len r < w)%nat); [lia|]. exfalso.
  assert (10 ^ Z.of_nat w ≤ 10 ^ Z.of_nat (len r)) by (apply Z.pow_le_mono_r; lia).
  assert (1 * 10 ^ Z.of_nat (len r) ≤ digit_value c * 10 ^ Z.of_nat (len r))
    by (apply Z.mul_le_mono_nonneg_r; lia).
  lia.
Qed.

End Decimal.

(** ** The regular expression [(\d+)$] *)

Section Regex.
Import Spec.

Lemma ends_with_digit_cons c (s : string) :
  s ≠ "" → ends_with_digit (String c s) = ends_with_digit s.
Proof. by destruct s. Qed.

Lemma ends_with_LF_cons c (s : string) :
  s ≠ "" → ends_with_LF (String c s) = ends_with_LF s.
Proof. by destruct s. Qed.

Lemma append_nonempty_r (a b : string) : b ≠ "" → a +:+ b ≠ "".
Proof. destruct a; [done|]. by rewrite append_cons. Qed.

Lemma ends_with_digit_append (a b : string) :
  b ≠ "" → ends_with_digit (a +:+ b) = ends_with_digit b.
Proof.
  intros Hb. induction a as [|c a IH]; [done|].
  rewrite append_cons, ends_with_digit_cons; [done | by apply append_nonempty_r].
Qed.

Lemma ends_with_LF_append (a b : string) :
  b ≠ "" → ends_with_LF (a +:+ b) = ends_with_LF b.
Proof.
  intros Hb. induction a as [|c a IH]; [done|].
  rewrite append_cons, ends_with_LF_cons; [done | by apply append_nonempty_r].
Qed.

Lemma all_digits_ends_with_digit (ds : string) :
  ds ≠ "" → all_digits ds = true → ends_with_digit ds = true.
Proof.
  induction ds as [|c ds IH]; [done|]. intros _ Hall. simpl in Hall.
  apply andb_true_iff in Hall as [Hc Hall].
  destruct ds as [|c' ds']; [done|].
  rewrite ends_with_digit_cons by done. by apply IH.
Qed.

Lemma span_digits_spec (s ds rest : string) :
  span_digits s = (ds, rest) →
  s = ds +:+ rest ∧ all_digits ds = true ∧
  match rest with String c _ => is_digit c = false | EmptyString => True end.
Proof.
  revert ds rest. induction s as [|c s IH]; intros ds rest Hspan; simpl in Hspan.
  - by inversion Hspan.
  - destruct (is_digit c) eqn:Hc.
    + destruct (span_digits s) as [ds' rest'] eqn:Hs. inversion Hspan; subst.
      destruct (IH _ _ eq_refl) as (-> & Hall & Hrest).
      rewrite append_cons. simpl. by rewrite Hc, Hall.
    + inversion Hspan; subst. by rewrite append_empty_l, Hc.
Qed.

Lemma span_digits_append (ds rest : string) :
  all_digits ds = true →
  match rest with String c _ => is_digit c = false | EmptyString => True end →
  span_digits (ds +:+ rest) = (ds, rest).
Proof.
  intros Hall Hrest. induction ds as [|c ds IH].
  - rewrite append_empty_l. destruct rest as [|c r]; [done|].
    simpl. by rewrite Hrest.
  - simpl in Hall. apply andb_true_iff in Hall as [Hc Hall].
    rewrite append_cons. simpl. by rewrite Hc, IH.
Qed.

(** What follows the digits found at the head of [p +:+ t] still holds a
    character of [p], when [p] does not end with a digit. *)
Lemma span_digits_rest_long (p t ds rest : string) :
  p ≠ "" → ends_with_digit p = false →
  span_digits (p +:+ t) = (ds, rest) → (len t < len rest)%nat.
Proof.
  revert ds rest. induction p as [|c p IH]; [done|].
  intros ds rest _ Hend Hspan. rewrite append_cons in Hspan. simpl in Hspan.
  destruct (is_digit c) eqn:Hc.
  - destruct p as [|c' p']; [simpl in Hend; congruence|].
    destruct (span_digits (String c' p' +:+ t)) as [ds' rest'] eqn:Hs.
    inversion Hspan; subst. eapply IH; [done | | done].
    by rewrite ends_with_digit_cons in Hend.
  - inversion Hspan; subst. simpl. rewrite len_append. lia.
Qed.

Lemma match_here_sound (t g : string) :
  match_here t = Some g →
  g ≠ "" ∧ all_digits g = true ∧ (t = g ∨ t = g +:+ String LF "").
Proof.
  unfold match_here. destruct (span_digits t) as [ds rest] eqn:Hspan.
  destruct (span_digits_spec _ _ _ Hspan) as (-> & Hall & _).
  destruct ds as [|c ds]; [done|].
  destruct (at_dollar rest) eqn:Hd; [|done].
  intros [= <-]. split_and!; [done | done |].
  destruct rest as [|c' [|c'' r]]; simpl in Hd; try done.
  - left. by rewrite append_empty_r.
  - right. apply Ascii.eqb_eq in Hd. by subst.
Qed.

Lemma match_here_digits (g : string) :
  g ≠ "" → all_digits g = true →
  match_here g = Some g ∧ match_here (g +:+ String LF "") = Some g.
Proof.
  intros Hne Hall. unfold match_here. split.
  - rewrite <- (append_empty_r g) at 1.
    rewrite span_digits_append by done. by destruct g.
  - rewrite span_digits_append by done. by destruct g.
Qed.

Lemma match_here_len (t g : string) : match_here t = Some g → (0 < len t)%nat.
Proof.
  intros Hm. destruct (match_here_sound _ _ Hm) as (Hne & _ & [-> | ->]).
  - destruct g; [done | simpl; lia].
  - rewrite len_append. simpl. lia.
Qed.

Lemma match_here_blocked (p t : string) :
  p ≠ "" → ends_with_digit p = false → (0 < len t)%nat →
  match_here (p +:+ t) = None.
Proof.
  intros Hp Hend Ht. unfold match_here.
  destruct (span_digits (p +:+ t)) as [ds rest] eqn:Hspan.
  pose proof (span_digits_rest_long _ _ _ _ Hp Hend Hspan) as Hlen.
  destruct ds; [done|].
  destruct rest as [|c' [|c'' r]]; simpl in Hlen; [lia | lia | done].
Qed.

(** The search finds the match that starts right after a prefix not
    ending with a digit. *)
Lemma re_search_append (p t g : string) :
  ends_with_digit p = false → match_here t = Some g →
  re_search (p +:+ t) = Some (len p, g).
Proof.
  intros Hend Hm. induction p as [|c p IH].
  - rewrite append_empty_l. destruct t; [by vm_compute in Hm|].
    simpl. by rewrite Hm.
  - pose proof (match_here_len _ _ Hm) as Ht.
    rewrite append_cons.
    change (re_search (String c (p +:+ t))) with
      (match match_here (String c (p +:+ t)) with
       | Some g1 => Some (0%nat, g1)
       | None => match re_search (p +:+ t) with
                 | Some (i, g1) => Some (S i, g1)
                 | None => None
                 end
       end).
    rewrite <- append_cons, match_here_blocked by done.
    rewrite IH; [done|].
    destruct p; [done|]. by rewrite ends_with_digit_cons in Hend.
Qed.

(** Whatever the search returns is a non-empty run of digits standing at
    the end of the string, or in front of a final line feed. *)
Lemma re_search_sound (s : string) i g :
  re_search s = Some (i, g) →
  g ≠ "" ∧ all_digits g = true ∧ len (slice_to i s) = i ∧
  (s = slice_to i s +:+ g ∨ s = slice_to i s +:+ g +:+ String LF "").
Proof.
  revert i. induction s as [|c s IH]; intros i Hs.
  - by vm_compute in Hs.
  - change (re_search (String c s)) with
      (match match_here (String c s) with
       | Some g1 => Some (0%nat, g1)
       | None => match re_search s with
                 | Some (i, g1) => Some (S i, g1)
                 | None => None
                 end
       end) in Hs.
    destruct (match_here (String c s)) as [g1|] eqn:Hm.
    + inversion Hs; subst.
      destruct (match_here_sound _ _ Hm) as (Hne & Hall & Hshape).
      by rewrite !append_empty_l.
    + destruct (re_search s) as [[j g1]|] eqn:Hr; [|done].
      inversion Hs; subst.
      destruct (IH _ eq_refl) as (Hne & Hall & Hlen & Hshape).
      split_and!; [done | done | by simpl; rewrite Hlen |].
      cbn [slice_to]. rewrite !append_cons.
      destruct Hshape as [Heq | Heq]; [left | right]; by rewrite <- Heq.
Qed.

Lemma re_search_none (s : string) :
  ends_with_digit s = false → ends_with_LF s = false → re_search s = None.
Proof.
  intros Hd Hl. destruct (re_search s) as [[i g]|] eqn:Hs; [|done].
  destruct (re_search_sound _ _ _ Hs) as (Hne & Hall & _ & [Heq | Heq]).
  - rewrite Heq, ends_with_digit_append in Hd by done.
    by rewrite all_digits_ends_with_digit in Hd.
  - rewrite Heq, <- append_assoc, ends_with_LF_append in Hl by done.
    by vm_compute in Hl.
Qed.

(** Every string is a prefix followed by its trailing run of digits. *)
Lemma trailing_run_exists (s : string) : ∃ p ds, trailing_run s p ds.
Proof.
  induction s as [|c s (p & ds & -> & Hall & Hend)].
  - by exists "", "".
  - destruct p as [|c' p'].
    + rewrite append_empty_l. destruct (is_digit c) eqn:Hc.
      * exists "", (String c ds). split_and!; [done | | done].
        simpl. by rewrite Hc, Hall.
      * exists (String c ""), ds. split_and!; [done | done | by simpl].
    + exists (String c (String c' p')), ds.
      split_and!; [by rewrite append_cons | done |].
      by rewrite ends_with_digit_cons.
Qed.

End Regex.

(** ** [in], [find] and [split] *)

Section Find.
Import Spec.

Lemma startswith_append (sub b : string) : startswith sub (sub +:+ b) = true.
Proof.
  induction sub as [|c sub IH]; [done|].
  rewrite append_cons. simpl. by rewrite Ascii.eqb_refl, IH.
Qed.

Lemma startswith_inv (sub s : string) :
  startswith sub s = true → s = sub +:+ slice_from (len sub) s.
Proof.
  revert s. induction sub as [|c sub IH]; intros s Hs; [by destruct s|].
  destruct s as [|c' s]; [done|]. simpl in Hs.
  apply andb_true_iff in Hs as [Hc Hs]. apply Ascii.eqb_eq in Hc as ->.
  rewrite append_cons. cbn [len slice_from]. f_equal. by apply IH.
Qed.

Lemma append_eq_len (a b a' b' : string) :
  a +:+ b = a' +:+ b' → len a = len a' → a = a' ∧ b = b'.
Proof.
  revert a'. induction a as [|c a IH]; intros [|c' a'] Heq Hlen; try done.
  rewrite !append_cons in Heq. inversion Heq; subst.
  destruct (IH a') as [-> ->]; [done | by inversion Hlen | done].
Qed.

(** Two ways of cutting one string overlap. *)
Lemma append_eq_append (a b a' b' : string) :
  a +:+ b = a' +:+ b' →
  (∃ m, a = a' +:+ m ∧ b' = m +:+ b) ∨ (∃ m, a' = a +:+ m ∧ b = m +:+ b').
Proof.
  revert a'. induction a as [|c a IH]; intros a' Heq.
  - right. exists a'. by rewrite !append_empty_l in *.
  - destruct a' as [|c' a'].
    + left. exists (String c a). by rewrite !append_empty_l in *.
    + rewrite !append_cons in Heq. inversion Heq; subst.
      destruct (IH _ H1) as [(m & -> & ->) | (m & -> & ->)];
        [left | right]; exists m; by rewrite append_cons.
Qed.

Lemma find_Some (sub s : string) i :
  find sub s = Some i →
  len (slice_to i s) = i ∧
  first_cut sub s (slice_to i s) (slice_from (i + len sub) s).
Proof.
  revert i. induction s as [|c s IH]; intros i Hf.
  - simpl in Hf. destruct (startswith sub "") eqn:Hsw; [|done].
    inversion Hf; subst. split; [done|]. split.
    + rewrite append_empty_l. by apply startswith_inv.
    + intros a b _. simpl. lia.
  - change (find sub (String c s)) with
      (if startswith sub (String c s) then Some 0%nat
       else S <$> find sub s) in Hf.
    destruct (startswith sub (String c s)) eqn:Hsw.
    + inversion Hf; subst. split; [done|]. split.
      * rewrite append_empty_l. by apply startswith_inv.
      * intros a b _. simpl. lia.
    + destruct (find sub s) as [j|] eqn:Hj; [|done].
      inversion Hf; subst.
      destruct (IH _ eq_refl) as (Hlen & Hcut & Hmin).
      split; [by simpl; rewrite Hlen|]. split.
      * cbn [slice_to Nat.add slice_from]. rewrite append_cons. by f_equal.
      * intros a b Hab. destruct a as [|c' a].
        -- rewrite append_empty_l in Hab.
           rewrite Hab, startswith_append in Hsw. done.
        -- rewrite append_cons in Hab. inversion Hab; subst.
           cbn [slice_to len]. apply le_n_S. by eapply Hmin.
Qed.

Lemma find_None (sub s : string) : find sub s = None → ¬ occurs sub s.
Proof.
  induction s as [|c s IH]; intros Hf (a & b & Hab).
  - simpl in Hf. destruct (startswith sub "") eqn:Hsw; [done|].
    destruct a; [|done]. rewrite append_empty_l in Hab.
    by rewrite Hab, startswith_append in Hsw.
  - change (find sub (String c s)) with
      (if startswith sub (String c s) then Some 0%nat
       else S <$> find sub s) in Hf.
    destruct (startswith sub (String c s)) eqn:Hsw; [done|].
    destruct (find sub s) eqn:Hj; [done|].
    destruct a as [|c' a].
    + rewrite append_empty_l in Hab. by rewrite Hab, startswith_append in Hsw.
    + rewrite append_cons in Hab. inversion Hab; subst.
      apply IH; [done|]. by exists a, b.
Qed.

Lemma first_cut_unique (sep s l r l' r' : string) :
  first_cut sep s l r → first_cut sep s l' r' → l = l' ∧ r = r'.
Proof.
  intros [Hs Hmin] [Hs' Hmin'].
  pose proof (Hmin _ _ Hs'). pose proof (Hmin' _ _ Hs).
  rewrite Hs in Hs'.
  destruct (append_eq_len _ _ _ _ Hs') as [-> Hr]; [lia|].
  split; [done|]. by apply (inj (String.app sep)) in Hr.
Qed.

(** [spec.split('..', 1)] on a string that holds [..]: the two sides of
    its first occurrence. *)
Lemma split1_first_cut (sep s l r : string) :
  first_cut sep s l r → contains sep s = true ∧ split1 sep s = [l; r].
Proof.
  intros Hcut. unfold contains, split1.
  destruct (find sep s) as [i|] eqn:Hf.
  - destruct (find_Some _ _ _ Hf) as [_ Hcut'].
    by destruct (first_cut_unique _ _ _ _ _ _ Hcut' Hcut) as [-> ->].
  - destruct Hcut as [Hs _]. exfalso. apply (find_None _ _ Hf). by exists l, r.
Qed.

Lemma contains_occurs (sub s : string) : contains sub s = true ↔ occurs sub s.
Proof.
  unfold contains. destruct (find sub s) as [i|] eqn:Hf.
  - split; [intros _|done].
    destruct (find_Some _ _ _ Hf) as [_ [Hs _]]. by eexists _, _.
  - split; [done|]. intros Hocc. by destruct (find_None _ _ Hf).
Qed.

Lemma contains_first_cut (sep s : string) :
  contains sep s = true → ∃ l r, first_cut sep s l r.
Proof.
  unfold contains. destruct (find sep s) as [i|] eqn:Hf; [|done].
  intros _. destruct (find_Some _ _ _ Hf) as [_ Hcut]. by eexists _, _.
Qed.

End Find.

(** ** [split_prefix_num] *)

Section Parse.
Import Spec.

(** The prefix cut off by the search does not end with a digit. *)
Lemma re_search_prefix (s : string) i g :
  re_search s = Some (i, g) → ends_with_digit (slice_to i s) = false.
Proof.
  intros Hs.
  destruct (re_search_sound _ _ _ Hs) as (Hne & Hall & Hlen & Hshape).
  remember (slice_to i s) as p eqn:Hp. clear Hp.
  destruct (trailing_run_exists (p +:+ g)) as (p' & d' & Heq & Hall' & Hend').
  assert (d' ≠ "") as Hd'.
  { intros ->. rewrite append_empty_r in Heq. rewrite <- Heq in Hend'.
    rewrite ends_with_digit_append in Hend' by done.
    by rewrite all_digits_ends_with_digit in Hend'. }
  destruct (match_here_digits d' Hd' Hall') as [Hm1 Hm2].
  assert (re_search s = Some (len p', d')) as Hs'.
  { destruct Hshape as [-> | ->].
    - rewrite Heq. by apply re_search_append.
    - rewrite <- append_assoc, Heq, append_assoc. by apply re_search_append. }
  rewrite Hs in Hs'. injection Hs' as Hi Hg. subst g.
  destruct (append_eq_len _ _ _ _ Heq) as [-> _]; [lia | done].
Qed.

Lemma split_prefix_num_run (p ds : string) :
  ds ≠ "" → all_digits ds = true → ends_with_digit p = false →
  (len ds ≤ int_max_str_digits)%nat →
  split_prefix_num (p +:+ ds) = Ok (p, Some (int_acc 0 ds), len ds).
Proof.
  intros Hne Hall Hend Hlen. unfold split_prefix_num.
  destruct (match_here_digits ds Hne Hall) as [Hm _].
  rewrite (re_search_append p ds ds Hend Hm).
  unfold int_or_raise. rewrite int_digits by done. simpl.
  by rewrite slice_to_append.
Qed.

Lemma split_prefix_num_run_LF (p ds : string) :
  ds ≠ "" → all_digits ds = true → ends_with_digit p = false →
  (len ds ≤ int_max_str_digits)%nat →
  split_prefix_num (p +:+ ds +:+ String LF "")
  = Ok (p, Some (int_acc 0 ds), len ds).
Proof.
  intros Hne Hall Hend Hlen. unfold split_prefix_num.
  destruct (match_here_digits ds Hne Hall) as [_ Hm].
  rewrite (re_search_append p _ ds Hend Hm).
  unfold int_or_raise. rewrite int_digits by done. simpl.
  by rewrite slice_to_append.
Qed.

(** A trailing run of more than [int_max_str_digits] digits is refused by
    [int], and the refusal leaves [split_prefix_num]. *)
Lemma split_prefix_num_run_long (p ds : string) :
  all_digits ds = true → ends_with_digit p = false →
  (int_max_str_digits < len ds)%nat →
  split_prefix_num (p +:+ ds) = Raise (ValueError (InvalidIntLiteral ds)).
Proof.
  intros Hall Hend Hlen. unfold split_prefix_num.
  assert (ds ≠ "") as Hne by (intros ->; simpl in Hlen; lia).
  destruct (match_here_digits ds Hne Hall) as [Hm _].
  rewrite (re_search_append p ds ds Hend Hm).
  unfold int_or_raise. by rewrite int_too_long.
Qed.

Lemma split_prefix_num_none (s : string) :
  ends_with_digit s = false → ends_with_LF s = false →
  split_prefix_num s = Ok (s, None, 0%nat).
Proof.
  intros Hd Hl. unfold split_prefix_num. by rewrite re_search_none.
Qed.

(** On a string that does not end with a line feed, and whose trailing run
    of digits is within the limit of [int], [split_prefix_num] returns the
    run and what stands before it. *)
Lemma split_prefix_num_trailing_run (s p ds : string) :
  trailing_run s p ds → ends_with_LF s = false →
  (len ds ≤ int_max_str_digits)%nat →
  split_prefix_num s =
    Ok (match ds with
        | EmptyString => (s, None, 0%nat)
        | _ => (p, Some (int_acc 0 ds), len ds)
        end).
Proof.
  intros Hrun Hl Hlen. pose proof Hrun as (-> & Hall & Hend).
  destruct ds as [|c ds].
  - rewrite append_empty_r in *. by apply split_prefix_num_none.
  - by apply split_prefix_num_run.
Qed.

(** What a returned number is. *)
Lemma split_prefix_num_number (s p : string) n w :
  split_prefix_num s = Ok (p, Some n, w) →
  ∃ ds, ds ≠ "" ∧ all_digits ds = true ∧ n = int_acc 0 ds ∧ w = len ds ∧
        0 ≤ n ∧ (s = p +:+ ds ∨ s = p +:+ ds +:+ String LF "").
Proof.
  unfold split_prefix_num.
  destruct (re_search s) as [[i g]|] eqn:Hs; [|done].
  destruct (re_search_sound _ _ _ Hs) as (Hne & Hall & Hlen & Hshape).
  unfold int_or_raise. destruct (int g) as [k|] eqn:Hint; [|done]. simpl.
  apply int_Some in Hint as (_ & _ & _ & ->).
  intros [= <- <- <-]. exists g.
  split_and!; [done | done | done | done | by apply int_acc_nonneg | done].
Qed.

(** A returned number was read from a run of digits within the limit of
    [int], and fits its width. *)
Lemma split_prefix_num_width (s p : string) n w :
  split_prefix_num s = Ok (p, Some n, w) →
  (0 < w ≤ int_max_str_digits)%nat ∧ 0 ≤ n < 10 ^ Z.of_nat w.
Proof.
  unfold split_prefix_num.
  destruct (re_search s) as [[i g]|] eqn:Hs; [|done].
  unfold int_or_raise. destruct (int g) as [k|] eqn:Hint; [|done]. simpl.
  apply int_Some in Hint as (Hne & Hall & Hlim & ->).
  intros [= _ <- <-]. split; [|by apply int_acc_bound].
  split; [|done]. destruct g; [done | simpl; lia].
Qed.

(** The prefix that is returned with a number does not end with a digit. *)
Lemma split_prefix_num_prefix (s p : string) n w :
  split_prefix_num s = Ok (p, Some n, w) → ends_with_digit p = false.
Proof.
  unfold split_prefix_num.
  destruct (re_search s) as [[i g]|] eqn:Hs; [|done].
  unfold int_or_raise. destruct (int g) as [k|]; [|done]. simpl.
  intros [= <- _ _]. by eapply re_search_prefix.
Qed.

(** Without a number the string is returned whole. *)
Lemma split_prefix_num_no_number (s p : string) w :
  split_prefix_num s = Ok (p, None, w) →
  p = s ∧ w = 0%nat ∧ re_search s = None.
Proof.
  unfold split_prefix_num.
  destruct (re_search s) as [[i g]|] eqn:Hs; [|by intros [= <- <-]].
  unfold int_or_raise. by destruct (int g).
Qed.

(** The only exception that leaves [split_prefix_num] is the refusal, by
    [int], of a matched run of more than [int_max_str_digits] digits. *)
Lemma split_prefix_num_Raise (s : string) e :
  split_prefix_num s = Raise e →
  ∃ p g,
    e = ValueError (InvalidIntLiteral g) ∧
    all_digits g = true ∧ (int_max_str_digits < len g)%nat ∧
    ends_with_digit p = false ∧
    (s = p +:+ g ∨ s = p +:+ g +:+ String LF "").
Proof.
  unfold split_prefix_num.
  destruct (re_search s) as [[i g]|] eqn:Hs; [|done].
  destruct (re_search_sound _ _ _ Hs) as (Hne & Hall & Hlen & Hshape).
  pose proof (re_search_prefix _ _ _ Hs) as Hend.
  unfold int_or_raise. destruct (int g) as [k|] eqn:Hint; [done|]. simpl.
  intros [= <-]. exists (slice_to i s), g.
  split_and!; [done | done | | done | done].
  destruct (decide (len g ≤ int_max_str_digits)%nat) as [Hle|]; [|lia].
  by rewrite int_digits in Hint.
Qed.

Lemma split_prefix_num_outcome (s : string) :
  (∃ p n w, split_prefix_num s = Ok (p, n, w)) ∨
  (∃ g, split_prefix_num s = Raise (ValueError (InvalidIntLiteral g)) ∧
        (int_max_str_digits < len g)%nat).
Proof.
  destruct (split_prefix_num s) as [[[p n] w]|e] eqn:Hs.
  - left. by exists p, n, w.
  - right. destruct (split_prefix_num_Raise _ _ Hs) as (p & g & -> & _ & Hlen & _).
    by exists g.
Qed.

Lemma trailing_run_unique (s p ds p' ds' : string) :
  trailing_run s p ds → trailing_run s p' ds' → p = p' ∧ ds = ds'.
Proof.
  intros (-> & Hall & Hend) (Heq & Hall' & Hend').
  destruct (append_eq_append _ _ _ _ Heq) as [(m & -> & ->) | (m & -> & ->)].
  - destruct m as [|c m]; [by rewrite append_empty_r, append_empty_l|].
    rewrite all_digits_append in Hall'. apply andb_true_iff in Hall' as [Hm _].
    rewrite ends_with_digit_append in Hend by done.
    by rewrite all_digits_ends_with_digit in Hend.
  - destruct m as [|c m]; [by rewrite append_empty_r, append_empty_l|].
    rewrite all_digits_append in Hall. apply andb_true_iff in Hall as [Hm _].
    rewrite ends_with_digit_append in Hend' by done.
    by rewrite all_digits_ends_with_digit in Hend'.
Qed.

End Parse.

(** ** [zfill] *)

Section Padding.
Import Spec.

Lemma len_zfill width (s : string) : len (zfill width s) = (width `max` len s)%nat.
Proof.
  unfold zfill. destruct (width <=? len s)%nat eqn:Hw.
  - apply Nat.leb_le in Hw. lia.
  - apply Nat.leb_gt in Hw. destruct s as [|c r].
    + rewrite len_repeat_char. simpl. lia.
    + destruct (Ascii.eqb c "+" || Ascii.eqb c "-")%bool.
      * cbn [len]. rewrite len_append, len_repeat_char. simpl in *. lia.
      * rewrite len_append, len_repeat_char. lia.
Qed.

(** On the numeral of a natural number [zfill] is [zero_pad]. *)
Lemma zfill_str i width : 0 ≤ i → zfill width (str i) = zero_pad i width.
Proof.
  intros Hi. unfold zfill, zero_pad.
  destruct (str_nonneg i Hi) as (_ & _ & c & r & Hcr & Hc & _).
  destruct (width <=? len (str i))%nat eqn:Hw.
  - apply Nat.leb_le in Hw.
    by replace (width - len (str i))%nat with 0%nat by lia.
  - rewrite Hcr.
    assert (Ascii.eqb c "+" = false ∧ Ascii.eqb c "-" = false) as [-> ->]; [|done].
    split; apply Ascii.eqb_neq; intros ->; by vm_compute in Hc.
Qed.

Lemma all_digits_repeat_zero n : all_digits (repeat_char "0" n) = true.
Proof. induction n as [|n IH]; [done|]. simpl. by rewrite IH. Qed.

Lemma int_acc_repeat_zero n (s : string) :
  int_acc 0 (repeat_char "0" n +:+ s) = int_acc 0 s.
Proof.
  induction n as [|n IH]; [done|].
  cbn [repeat_char]. rewrite append_cons. cbn [int_acc].
  replace (10 * 0 + digit_value "0") with 0 by (by vm_compute). done.
Qed.

(** [zero_pad]: digits only, at least [width] of them, none of [str i]
    lost, and the value read back is [i]. *)
Lemma zero_pad_spec i width :
  0 ≤ i →
  len (zero_pad i width) = (width `max` len (str i))%nat ∧
  all_digits (zero_pad i width) = true ∧
  int_acc 0 (zero_pad i width) = i ∧
  ((width ≤ len (str i))%nat → zero_pad i width = str i).
Proof.
  intros Hi.
  destruct (str_nonneg i Hi) as (Hall & Hval & c & r & Hcr & _).
  split_and!.
  - rewrite <- zfill_str by done. apply len_zfill.
  - unfold zero_pad. by rewrite all_digits_append, all_digits_repeat_zero.
  - unfold zero_pad. by rewrite int_acc_repeat_zero, Hval.
  - intros Hw. unfold zero_pad.
    by replace (width - len (str i))%nat with 0%nat by lia.
Qed.

Lemma zero_pad_nonempty i width : 0 ≤ i → zero_pad i width ≠ "".
Proof.
  intros Hi. destruct (str_nonneg i Hi) as (_ & _ & c & r & Hcr & _).
  unfold zero_pad. apply append_nonempty_r. by rewrite Hcr.
Qed.

(** [int] reads a padded numeral back, within the limit on digits. *)
Lemma int_zero_pad i width :
  0 ≤ i → (width `max` len (str i) ≤ int_max_str_digits)%nat →
  int (zero_pad i width) = Some i.
Proof.
  intros Hi Hlim.
  destruct (zero_pad_spec i width Hi) as (Hlen & Hall & Hval & _).
  rewrite int_digits; [by rewrite Hval | by apply zero_pad_nonempty | done | lia].
Qed.

Lemma zero_pad_exact i (width : nat) :
  (0 < width)%nat → 0 ≤ i < 10 ^ Z.of_nat width →
  len (zero_pad i width) = width ∧ zero_pad i width ≠ "" ∧
  all_digits (zero_pad i width) = true ∧ int_acc 0 (zero_pad i width) = i.
Proof.
  intros Hw Hi.
  destruct (zero_pad_spec i width) as (Hlen & Hall & Hval & _); [lia|].
  pose proof (len_str_bound i width Hw Hi).
  split_and!; [lia | apply zero_pad_nonempty; lia | done | done].
Qed.

(** Padding the number of a run of digits to the length of the run gives
    the run back. *)
Lemma zero_pad_digits (ds : string) :
  ds ≠ "" → all_digits ds = true → zero_pad (int_acc 0 ds) (len ds) = ds.
Proof.
  intros Hne Hall. pose proof (int_acc_bound ds Hall) as Hb.
  assert (0 ≤ int_acc 0 ds) as Hpos by lia.
  destruct (zero_pad_spec (int_acc 0 ds) (len ds) Hpos) as (Hlen & Hdig & Hval & _).
  assert (0 < len ds)%nat as Hw by (destruct ds; [done | simpl; lia]).
  pose proof (len_str_bound _ _ Hw Hb).
  apply digits_inj; [done | done | lia | done].
Qed.

End Padding.

(** ** [expand_range] *)

Section Expand.
Import Spec.

Lemma expand_range_cut (spec l r : string) :
  first_cut ".." spec l r →
  expand_range spec =
    ('(p1, n1, w1) ← split_prefix_num l;
     '(p2, n2, w2) ← split_prefix_num r;
     match n1, n2 with
     | Some n1, Some n2 =>
         if negb (String.eqb p1 p2)
         then Raise (ValueError (PrefixesDiffer p1 p2))
         else if n1 >? n2 then Raise (ValueError StartIsGreaterThanEnd)
         else Ok ((fun i => p1 +:+ zfill (w1 `max` w2) (str i)) <$> range n1 n2)
     | _, _ => Raise (ValueError BothEndpointsMustEndWithNumber)
     end).
Proof.
  intros Hcut. unfold expand_range.
  by destruct (split1_first_cut _ _ _ _ Hcut) as [-> ->].
Qed.

Lemma expand_range_no_dots (spec : string) :
  ¬ occurs ".." spec →
  expand_range spec = Raise (ValueError RangeMustContainDots).
Proof.
  intros Hno. unfold expand_range.
  destruct (contains ".." spec) eqn:Hc; [|done].
  by apply contains_occurs in Hc.
Qed.

Lemma expand_range_Ok (spec l r p : string) n1 w1 n2 w2 :
  first_cut ".." spec l r →
  split_prefix_num l = Ok (p, Some n1, w1) →
  split_prefix_num r = Ok (p, Some n2, w2) →
  n1 ≤ n2 →
  expand_range spec =
    Ok ((fun i => p +:+ zfill (w1 `max` w2) (str i)) <$> seqZ n1 (n2 - n1)).
Proof.
  intros Hcut Hl Hr Hle. rewrite (expand_range_cut _ _ _ Hcut), Hl, Hr. simpl.
  rewrite String.eqb_refl. simpl.
  by assert ((n1 >? n2) = false) as -> by lia.
Qed.

Lemma expand_range_inv (spec : string) names :
  expand_range spec = Ok names →
  ∃ l r p n1 w1 n2 w2,
    first_cut ".." spec l r ∧
    split_prefix_num l = Ok (p, Some n1, w1) ∧
    split_prefix_num r = Ok (p, Some n2, w2) ∧
    n1 ≤ n2 ∧
    names = (fun i => p +:+ zfill (w1 `max` w2) (str i)) <$> seqZ n1 (n2 - n1).
Proof.
  intros Hok.
  destruct (contains ".." spec) eqn:Hc;
    [|by unfold expand_range in Hok; rewrite Hc in Hok].
  destruct (contains_first_cut _ _ Hc) as (l & r & Hcut).
  rewrite (expand_range_cut _ _ _ Hcut) in Hok.
  destruct (split_prefix_num l) as [[[p1 n1] w1]|] eqn:Hl; [|done].
  destruct (split_prefix_num r) as [[[p2 n2] w2]|] eqn:Hr; [|done].
  simpl in Hok. destruct n1 as [n1|], n2 as [n2|]; try done.
  destruct (String.eqb p1 p2) eqn:Hp; [|done]. apply String.eqb_eq in Hp as <-.
  simpl in Hok. destruct (n1 >? n2) eqn:Hn; [done|].
  inversion Hok; subst. exists l, r, p1, n1, w1, n2, w2.
  split_and!; [done | done | done | lia | done].
Qed.

(** What [expand_range] returns: one prefix, not ending with a digit, one
    width, and the numbers of a range that fit the width. *)
Lemma expand_range_shape (spec : string) names :
  expand_range spec = Ok names →
  ∃ p n1 n2 (width : nat),
    ends_with_digit p = false ∧ (0 < width ≤ int_max_str_digits)%nat ∧
    0 ≤ n1 ≤ n2 ∧ n2 < 10 ^ Z.of_nat width ∧
    names = (fun i => p +:+ zero_pad i width) <$> seqZ n1 (n2 - n1).
Proof.
  intros Hok.
  destruct (expand_range_inv _ _ Hok)
    as (l & r & p & n1 & w1 & n2 & w2 & Hcut & Hl & Hr & Hle & ->).
  destruct (split_prefix_num_width _ _ _ _ Hl) as (Hw1 & Hn1 & _).
  destruct (split_prefix_num_width _ _ _ _ Hr) as (Hw2 & _ & Hb).
  exists p, n1, n2, (w1 `max` w2)%nat.
  split_and!; [by eapply split_prefix_num_prefix | lia | lia | done | done | |].
  - eapply Z.lt_le_trans; [apply Hb|]. apply Z.pow_le_mono_r; lia.
  - apply list_fmap_ext. intros k i Hi. apply lookup_seqZ in Hi as [-> _].
    by rewrite zfill_str by lia.
Qed.

(** The same, with the sides of the cut and what the parser made of
    them. *)
Lemma expand_range_parts (spec : string) names :
  expand_range spec = Ok names →
  ∃ l r p n1 w1 n2 w2,
    first_cut ".." spec l r ∧
    split_prefix_num l = Ok (p, Some n1, w1) ∧
    split_prefix_num r = Ok (p, Some n2, w2) ∧
    0 ≤ n1 ≤ n2 ∧ (0 < w1 `max` w2)%nat ∧ n2 < 10 ^ Z.of_nat (w1 `max` w2) ∧
    names = (fun i => p +:+ zero_pad i (w1 `max` w2)) <$> seqZ n1 (n2 - n1).
Proof.
  intros Hok.
  destruct (expand_range_inv _ _ Hok)
    as (l & r & p & n1 & w1 & n2 & w2 & Hcut & Hl & Hr & Hle & ->).
  destruct (split_prefix_num_width _ _ _ _ Hl) as (Hw1 & Hn1 & _).
  destruct (split_prefix_num_width _ _ _ _ Hr) as (Hw2 & _ & Hb).
  exists l, r, p, n1, w1, n2, w2.
  split_and!; [done | done | done | lia | lia | lia | |].
  - eapply Z.lt_le_trans; [apply Hb|]. apply Z.pow_le_mono_r; lia.
  - apply list_fmap_ext. intros k i Hi. apply lookup_seqZ in Hi as [-> _].
    by rewrite zfill_str by lia.
Qed.

(** Every number that [expand_range] hands to [str] has at most
    [int_max_str_digits] digits: it is below the right endpoint, which [int]
    has read from a run within the limit. *)
Lemma expand_range_str_within_limit (spec l r p : string) n1 w1 n2 w2 :
  first_cut ".." spec l r →
  split_prefix_num l = Ok (p, Some n1, w1) →
  split_prefix_num r = Ok (p, Some n2, w2) →
  ∀ i, i ∈ range n1 n2 →
       0 ≤ i ∧ (len (str i) ≤ w2)%nat ∧ (w2 ≤ int_max_str_digits)%nat.
Proof.
  intros _ Hl Hr i Hi. unfold range in Hi. apply elem_of_seqZ in Hi.
  destruct (split_prefix_num_width _ _ _ _ Hl) as (_ & Hn1 & _).
  destruct (split_prefix_num_width _ _ _ _ Hr) as (Hw2 & _ & Hb).
  split_and!; [lia | | lia]. apply len_str_bound; lia.
Qed.

Lemma expand_range_total (spec : string) :
  returns (expand_range spec) ∨ raises (expand_range spec).
Proof. destruct (expand_range spec); [left | right]; by eexists. Qed.

Lemma returns_not_raises {E A} (r : result E A) : returns r → ¬ raises r.
Proof. intros [a ->] [e ?]. done. Qed.

(** A specification that keeps the invariants is expanded, unless a run of
    digits is too long for [int]. *)
Lemma valid_outcome (spec : string) :
  valid spec →
  returns (expand_range spec) ∨
  ∃ g, expand_range spec = Raise (ValueError (InvalidIntLiteral g)) ∧
       (int_max_str_digits < len g)%nat.
Proof.
  intros (l & r & p & d1 & d2 & Hcut & (-> & Ha1 & He1) & (-> & Ha2 & He2) & Hn1 & Hn2 & Hle).
  destruct (decide (len d1 ≤ int_max_str_digits)%nat) as [Hl1|Hl1].
  - destruct (decide (len d2 ≤ int_max_str_digits)%nat) as [Hl2|Hl2].
    + left. eexists. eapply expand_range_Ok; [done | | | done];
        by apply split_prefix_num_run.
    + right. exists d2. split; [|lia].
      rewrite (expand_range_cut _ _ _ Hcut).
      rewrite (split_prefix_num_run p d1) by done.
      by rewrite (split_prefix_num_run_long p d2) by (done || lia).
  - right. exists d1. split; [|lia].
    rewrite (expand_range_cut _ _ _ Hcut).
    by rewrite (split_prefix_num_run_long p d1) by (done || lia).
Qed.

(** Conversely, when no side of the cut ends with a line feed. *)
Lemma returns_valid (spec : string) :
  (∀ l r, first_cut ".." spec l r → ends_with_LF l = false ∧ ends_with_LF r = false) →
  returns (expand_range spec) → valid spec.
Proof.
  intros HLF [names Hok].
  destruct (expand_range_inv _ _ Hok) as (l & r & p & n1 & w1 & n2 & w2 & Hcut & Hl & Hr & Hle & _).
  destruct (HLF _ _ Hcut) as [HlLF HrLF].
  pose proof (split_prefix_num_prefix _ _ _ _ Hl) as Hend.
  destruct (split_prefix_num_number _ _ _ _ Hl)
    as (d1 & Hd1 & Hall1 & -> & _ & _ & [Hls | Hls]);
    [|by rewrite Hls, <- append_assoc, ends_with_LF_append in HlLF].
  destruct (split_prefix_num_number _ _ _ _ Hr)
    as (d2 & Hd2 & Hall2 & -> & _ & _ & [Hrs | Hrs]);
    [|by rewrite Hrs, <- append_assoc, ends_with_LF_append in HrLF].
  exists l, r, p, d1, d2. by split_and!.
Qed.

Lemma violates_not_valid (spec : string) : violates spec ↔ ¬ valid spec.
Proof.
  split.
  - intros [Hno | (l & r & p1 & d1 & p2 & d2 & Hcut & Hr1 & Hr2 & Hbad)]
           (l' & r' & p & e1 & e2 & Hcut' & Hr1' & Hr2' & Hn1 & Hn2 & Hle).
    + apply Hno. destruct Hcut' as [-> _]. by exists l', r'.
    + destruct (first_cut_unique _ _ _ _ _ _ Hcut Hcut') as [-> ->].
      destruct (trailing_run_unique _ _ _ _ _ Hr1 Hr1') as [-> ->].
      destruct (trailing_run_unique _ _ _ _ _ Hr2 Hr2') as [-> ->].
      destruct Hbad as [? | [? | [? | ?]]]; [done | done | done | lia].
  - intros Hnot. destruct (contains ".." spec) eqn:Hc.
    + destruct (contains_first_cut _ _ Hc) as (l & r & Hcut).
      destruct (trailing_run_exists l) as (p1 & d1 & Hr1).
      destruct (trailing_run_exists r) as (p2 & d2 & Hr2).
      right. exists l, r, p1, d1, p2, d2. split_and!; [done | done | done |].
      destruct (decide (d1 = "")) as [? | Hn1]; [by left|].
      destruct (decide (d2 = "")) as [? | Hn2]; [by right; left|].
      destruct (decide (p1 = p2)) as [-> | ?]; [|by right; right; left].
      destruct (decide (int_acc 0 d1 ≤ int_acc 0 d2)); [|right; right; right; lia].
      destruct Hnot. exists l, r, p2, d1, d2. by split_and!.
    + left. intros Hocc. apply contains_occurs in Hocc. congruence.
Qed.

(** [expand_range] raises one of its own errors only on a specification
    that breaks an invariant. *)
Lemma raises_violates (spec : string) m :
  expand_range spec = Raise (ValueError m) →
  (∀ g, m ≠ InvalidIntLiteral g) → violates spec.
Proof.
  intros Hraise Hown. apply violates_not_valid. intros Hvalid.
  destruct (valid_outcome _ Hvalid) as [[names Hok] | (g & Hg & _)].
  - by rewrite Hok in Hraise.
  - rewrite Hg in Hraise. injection Hraise as <-. by apply (Hown g).
Qed.

(** It raises on each of them, when no side of the cut ends with a line
    feed. *)
Lemma violates_raises (spec : string) :
  (∀ l r, first_cut ".." spec l r → ends_with_LF l = false ∧ ends_with_LF r = false) →
  violates spec → raises (expand_range spec).
Proof.
  intros HLF Hbad. apply violates_not_valid in Hbad.
  destruct (expand_range_total spec) as [Hret | Hraise]; [|done].
  destruct Hbad. by apply returns_valid.
Qed.

(** The limit of [int], at its boundary: a run of [int_max_str_digits]
    zeros is read as [0], one more zero is refused. *)
Lemma split_prefix_num_digit_limit :
  split_prefix_num ("a" +:+ repeat_char "0" int_max_str_digits)
  = Ok ("a", Some 0, int_max_str_digits) ∧
  split_prefix_num ("a" +:+ repeat_char "0" (S int_max_str_digits))
  = Raise (ValueError (InvalidIntLiteral (repeat_char "0" (S int_max_str_digits)))).
Proof.
  split.
  - rewrite split_prefix_num_run;
      [| done | apply all_digits_repeat_zero | done | by rewrite len_repeat_char].
    rewrite len_repeat_char.
    rewrite <- (append_empty_r (repeat_char "0" int_max_str_digits)).
    by rewrite int_acc_repeat_zero.
  - apply split_prefix_num_run_long;
      [apply all_digits_repeat_zero | done |]. rewrite len_repeat_char. lia.
Qed.

(** The refusals listed with the range language. *)
Lemma expand_range_refusals :
  expand_range "x5..y9" = Raise (ValueError (PrefixesDiffer "x" "y")) ∧
  expand_range "x9..x5" = Raise (ValueError StartIsGreaterThanEnd) ∧
  expand_range "abc" = Raise (ValueError RangeMustContainDots) ∧
  expand_range "a..a7" = Raise (ValueError BothEndpointsMustEndWithNumber).
Proof. by vm_compute. Qed.

End Expand.

(** * Properties of the range language *)

Section RangeProperties.
Import Spec.

(** C1, amended.  Let [spec] be cut at its first [..] into two sides that
    [split_prefix_num] parses to the same prefix [p] and to numbers
    [n1 <= n2].  Then [expand_range] returns, in order, the strings
    [p + zero_pad(i, max(w1, w2))] for [i] from [n1] up to and excluding
    [n2]; in particular ["000-000..000-010"] gives the ten names
    ["000-000"] to ["000-009"], and equal numbers give the empty list, as
    for ["a1..a1"].  (The string ["a..a"] has no number and is refused.) *)
Theorem expand_range_half_open (spec l r p : string) (n1 n2 : Z) (w1 w2 : nat) :
  first_cut ".." spec l r →
  split_prefix_num l = Ok (p, Some n1, w1) →
  split_prefix_num r = Ok (p, Some n2, w2) →
  n1 ≤ n2 →
  ∃ names,
    expand_range spec = Ok names ∧
    length names = Z.to_nat (n2 - n1) ∧
    (∀ k : nat, Z.of_nat k < n2 - n1 →
       names !! k = Some (p +:+ zero_pad (n1 + Z.of_nat k) (w1 `max` w2))) ∧
    (n1 = n2 → names = []) ∧
    expand_range "000-000..000-010" =
      Ok ["000-000"; "000-001"; "000-002"; "000-003"; "000-004";
          "000-005"; "000-006"; "000-007"; "000-008"; "000-009"] ∧
    expand_range "a1..a1" = Ok [].
Proof.
  intros Hcut Hl Hr Hle.
  destruct (split_prefix_num_number _ _ _ _ Hl) as (_ & _ & _ & _ & _ & Hn1 & _).
  eexists. split; [by eapply expand_range_Ok|].
  split_and!.
  - by rewrite length_fmap, length_seqZ.
  - intros k Hk. rewrite list_lookup_fmap, lookup_seqZ_lt by done. simpl.
    by rewrite zfill_str by lia.
  - intros ->. by rewrite seqZ_nil by lia.
  - by vm_compute.
  - by vm_compute.
Qed.

Lemma expand_range_half_open_witness :
  ∃ names,
    expand_range "x08..x11" = Ok names ∧
    length names = 3%nat ∧
    names !! 2%nat = Some ("x" +:+ zero_pad 10 2).
Proof.
  destruct (find_Some ".." "x08..x11" 3 eq_refl) as [_ Hcut].
  destruct (expand_range_half_open "x08..x11" _ _ "x" 8 11 2 2 Hcut eq_refl eq_refl)
    as (names & Hnames & Hlen & Hnth & _); [lia|].
  exists names. split_and!; [done | done |]. apply (Hnth 2%nat). lia.
Defined.

Lemma expand_range_refuses_a_dotdot_a :
  expand_range "a..a" = Raise (ValueError BothEndpointsMustEndWithNumber) ∧
  expand_range "a..a" ≠ Ok [].
Proof. split; by vm_compute. Qed.

(** C2.  On the string ["a1\n"], whose last character is not a digit and
    whose trailing run of digits is therefore empty, [split_prefix_num]
    returns [("a", 1, 1)] and not [("a1\n", None, 0)]: the prefix and the
    digits it returns no longer make up the string. *)
Theorem split_prefix_num_final_newline :
  let s := "a1" +:+ String LF "" in
  trailing_run s s "" ∧
  split_prefix_num s = Ok ("a", Some 1, 1%nat) ∧
  split_prefix_num s ≠ Ok (s, None, 0%nat) ∧
  "a" +:+ "1" ≠ s.
Proof. by vm_compute. Qed.

(** C3.  The specification ["a1\n..a5"] breaks an invariant, its left
    side ["a1\n"] does not end with a digit, and [expand_range] returns
    four names for it instead of raising. *)
Theorem expand_range_final_newline :
  let spec := "a1" +:+ String LF "..a5" in
  first_cut ".." spec ("a1" +:+ String LF "") "a5" ∧
  ends_with_digit ("a1" +:+ String LF "") = false ∧
  violates spec ∧
  expand_range spec = Ok ["a1"; "a2"; "a3"; "a4"].
Proof.
  cbn zeta.
  destruct (find_Some ".." ("a1" +:+ String LF "..a5") 3 eq_refl) as [_ Hcut].
  split_and!; [exact Hcut | done | | by vm_compute].
  right. exists ("a1" +:+ String LF ""), "a5", ("a1" +:+ String LF ""), "", "a", "5".
  split_and!; [exact Hcut | by vm_compute | by vm_compute | by left].
Qed.

(** C4.  Whenever [expand_range] returns, the name at index [k] is the
    common prefix followed by the number [i = n1 + k] written in decimal and
    left-padded with ['0'] to [width = max(w1, w2)] characters: the padded
    numeral has [max(width, len(str(i)))] characters, so nothing of
    [str(i)] is cut off, and a numeral of [width] characters or more stands
    unpadded.  For ["a1..a100"] this gives 99 names of width 3, from
    ["a001"] to ["a099"]. *)
Theorem expand_range_zero_padding (spec : string) (names : list string) :
  expand_range spec = Ok names →
  ∃ l r p n1 w1 n2 w2,
    first_cut ".." spec l r ∧
    split_prefix_num l = Ok (p, Some n1, w1) ∧
    split_prefix_num r = Ok (p, Some n2, w2) ∧
    length names = Z.to_nat (n2 - n1) ∧
    (∀ (k : nat) (name : string),
       names !! k = Some name →
       let i := n1 + Z.of_nat k in
       let width := (w1 `max` w2)%nat in
       0 ≤ i < n2 ∧
       name = p +:+ repeat_char "0" (width - len (str i)) +:+ str i ∧
       len (zero_pad i width) = (width `max` len (str i))%nat ∧
       all_digits (str i) = true ∧ int (str i) = Some i ∧
       int (zero_pad i width) = Some i ∧
       ((width ≤ len (str i))%nat → zero_pad i width = str i)) ∧
    ∃ names100,
      expand_range "a1..a100" = Ok names100 ∧
      length names100 = 99%nat ∧
      head names100 = Some "a001" ∧ last names100 = Some "a099" ∧
      Forall (fun name => len name = 4%nat) names100.
Proof.
  intros Hok.
  destruct (expand_range_inv _ _ Hok)
    as (l & r & p & n1 & w1 & n2 & w2 & Hcut & Hl & Hr & Hle & ->).
  destruct (split_prefix_num_width _ _ _ _ Hl) as (Hw1 & Hn1 & _).
  exists l, r, p, n1, w1, n2, w2. split_and!; try done.
  - by rewrite length_fmap, length_seqZ.
  - intros k name Hk. cbn zeta.
    rewrite list_lookup_fmap in Hk.
    destruct (seqZ n1 (n2 - n1) !! k) as [i|] eqn:Hi; [|done].
    apply lookup_seqZ in Hi as [-> Hlt]. simpl in Hk. inversion Hk; subst.
    assert (0 ≤ n1 + Z.of_nat k) as Hpos by lia.
    destruct (expand_range_str_within_limit _ _ _ _ _ _ _ _ Hcut Hl Hr
                (n1 + Z.of_nat k)) as (_ & Hstr & Hw2).
    { unfold range. apply elem_of_seqZ. lia. }
    destruct (zero_pad_spec (n1 + Z.of_nat k) (w1 `max` w2) Hpos)
      as (Hlen & _ & _ & Hfull).
    destruct (str_nonneg _ Hpos) as (Hall & _ & _).
    split_and!; [lia | lia | by rewrite zfill_str | done | done
                 | apply int_str; lia | apply int_zero_pad; lia | done].
  - eexists. split; [by vm_compute|].
    split_and!; [done | done | done |]. repeat constructor.
Qed.

Lemma expand_range_zero_padding_witness :
  ∃ p n1 n2 w1 w2,
    split_prefix_num "a8" = Ok (p, Some n1, w1) ∧
    split_prefix_num "a011" = Ok (p, Some n2, w2) ∧
    ["a008"; "a009"; "a010"] !! 2%nat
    = Some (p +:+ repeat_char "0" ((w1 `max` w2) - len (str (n1 + 2))) +:+ str (n1 + 2)).
Proof.
  destruct (expand_range_zero_padding "a8..a011" ["a008"; "a009"; "a010"] eq_refl)
    as (l & r & p & n1 & w1 & n2 & w2 & Hcut & Hl & Hr & _ & Hnth & _).
  destruct (find_Some ".." "a8..a011" 2 eq_refl) as [_ Hcut'].
  destruct (first_cut_unique _ _ _ _ _ _ Hcut Hcut') as [-> ->].
  exists p, n1, n2, w1, w2. split_and!; [done | done |].
  destruct (Hnth 2%nat "a010" eq_refl) as (_ & Hname & _).
  simpl. by rewrite Hname.
Defined.

(** C10.  The number that [split_prefix_num] returns is [None] or a
    non-negative integer; on every string the function either returns or
    raises the refusal, by [int], of a matched run of more than
    [int_max_str_digits] digits.  A minus sign in front of the trailing
    digits stays in the prefix: [p + "-" + ds] parses to the prefix
    [p + "-"] and the number written by [ds], a natural number, whenever
    [int] accepts [ds], and ["a-5"] parses to [("a-", 5, 1)].  So the two
    endpoints of a specification that [expand_range] accepts are natural
    numbers. *)
Theorem split_prefix_num_natural :
  (∀ (s p : string) n w,
      split_prefix_num s = Ok (p, n, w) →
      match n with Some k => 0 ≤ k | None => True end) ∧
  (∀ s : string,
      (∃ p n w, split_prefix_num s = Ok (p, n, w)) ∨
      (∃ g, split_prefix_num s = Raise (ValueError (InvalidIntLiteral g)) ∧
            (int_max_str_digits < len g)%nat)) ∧
  (∀ p ds : string,
      ds ≠ "" → all_digits ds = true →
      0 ≤ int_acc 0 ds ∧
      split_prefix_num (p +:+ "-" +:+ ds)
      = if (len ds <=? int_max_str_digits)%nat
        then Ok (p +:+ "-", Some (int_acc 0 ds), len ds)
        else Raise (ValueError (InvalidIntLiteral ds))) ∧
  split_prefix_num "a-5" = Ok ("a-", Some 5, 1%nat) ∧
  (∀ (spec : string) names,
      expand_range spec = Ok names →
      ∃ l r p n1 w1 n2 w2,
        first_cut ".." spec l r ∧
        split_prefix_num l = Ok (p, Some n1, w1) ∧
        split_prefix_num r = Ok (p, Some n2, w2) ∧
        0 ≤ n1 ≤ n2).
Proof.
  split_and!.
  - intros s p [k|] w Hs; [|done].
    by destruct (split_prefix_num_number _ _ _ _ Hs) as (_ & _ & _ & _ & _ & Hk & _).
  - apply split_prefix_num_outcome.
  - intros p ds Hne Hall. split; [by apply int_acc_nonneg|].
    assert (ends_with_digit (p +:+ "-") = false) as Hend
      by (by rewrite ends_with_digit_append).
    rewrite <- append_assoc.
    destruct (len ds <=? int_max_str_digits)%nat eqn:Hlen.
    + apply Nat.leb_le in Hlen. by apply split_prefix_num_run.
    + apply Nat.leb_gt in Hlen. by apply split_prefix_num_run_long.
  - by vm_compute.
  - intros spec names Hok.
    destruct (expand_range_inv _ _ Hok)
      as (l & r & p & n1 & w1 & n2 & w2 & Hcut & Hl & Hr & Hle & _).
    destruct (split_prefix_num_number _ _ _ _ Hl) as (_ & _ & _ & _ & _ & Hn1 & _).
    exists l, r, p, n1, w1, n2, w2. by split_and!.
Qed.

Lemma split_prefix_num_natural_witness :
  0 ≤ 42 ∧
  split_prefix_num ("dir" +:+ "-" +:+ "042") = Ok ("dir" +:+ "-", Some 42, 3%nat) ∧
  ∃ l r p n1 w1 n2 w2,
    first_cut ".." "b-3..b-5" l r ∧
    split_prefix_num l = Ok (p, Some n1, w1) ∧
    split_prefix_num r = Ok (p, Some n2, w2) ∧
    0 ≤ n1 ≤ n2.
Proof.
  destruct split_prefix_num_natural as (Hnat & _ & Hminus & _ & Hrange).
  split_and!.
  - exact (Hnat "dir-042" "dir-" (Some 42) 3%nat eq_refl).
  - destruct (Hminus "dir" "042") as [_ ->]; done.
  - apply (Hrange "b-3..b-5" ["b-3"; "b-4"]). by vm_compute.
Defined.

End RangeProperties.

(** * The batch selection and the runner *)

Section Batch.
Import Spec Convert.
Context `{Platform}.

(** ** The first path segment *)

Lemma top_segment_cut (a b : string) :
  ¬ occurs (String os_sep "") a →
  top_segment (a +:+ String os_sep b) = a.
Proof.
  unfold top_segment. induction a as [|c a IH]; intros Hno.
  - rewrite append_empty_l. simpl. by rewrite Ascii.eqb_refl.
  - rewrite append_cons. simpl. destruct (Ascii.eqb c os_sep) eqn:Hc.
    + apply Ascii.eqb_eq in Hc as ->. destruct Hno. by exists "", a.
    + assert (¬ occurs (String os_sep "") a) as Hno'.
      { intros (x & y & ->). apply Hno. exists (String c x), y.
        by rewrite append_cons. }
      specialize (IH Hno').
      destruct (split_char os_sep (a +:+ String os_sep b)); simpl in *; by subst.
Qed.

Lemma top_segment_whole (rel : string) :
  ¬ occurs (String os_sep "") rel → top_segment rel = rel.
Proof.
  unfold top_segment. induction rel as [|c a IH]; intros Hno; [done|].
  simpl. destruct (Ascii.eqb c os_sep) eqn:Hc.
  - apply Ascii.eqb_eq in Hc as ->. destruct Hno. by exists "", a.
  - assert (¬ occurs (String os_sep "") a) as Hno'.
    { intros (x & y & ->). apply Hno. exists (String c x), y.
      by rewrite append_cons. }
    specialize (IH Hno').
    destruct (split_char os_sep a) eqn:Hs; simpl in *; by subst.
Qed.

(** ** The filter loop *)

Lemma filter_allowed_acc args (allowed : gset string) (meshes acc : list string) :
  foldl (fun filtered p =>
           let rel := relpath p (input args) in
           let top := top_segment rel in
           if decide (top ∈ allowed) then filtered ++ [p] else filtered)
        acc meshes
  = acc ++ filter (fun p => top_of args p ∈ allowed) meshes.
Proof.
  revert acc. induction meshes as [|p meshes IH]; intros acc; simpl.
  - by rewrite app_nil_r.
  - rewrite IH, filter_cons. unfold top_of. cbn zeta.
    destruct (decide (top_segment (relpath p (input args)) ∈ allowed)); [|done].
    by rewrite <- app_assoc.
Qed.

Lemma filter_allowed_filter args (allowed : gset string) (meshes : list string) :
  filter_allowed args allowed meshes
  = filter (fun p => top_of args p ∈ allowed) meshes.
Proof. unfold filter_allowed. by rewrite filter_allowed_acc. Qed.

Lemma filter_filter_same {A} (P : A → Prop) `{∀ x, Decision (P x)} (l : list A) :
  filter P (filter P l) = filter P l.
Proof.
  induction l as [|x l IH]; [done|]. rewrite filter_cons.
  destruct (decide (P x)) as [Hx|Hx]; [|done].
  rewrite filter_cons, decide_True by done. by rewrite IH.
Qed.

Lemma filter_occurrences {A} `{EqDecision A} (P : A → Prop) `{∀ x, Decision (P x)}
    (l : list A) (x : A) :
  P x → length (filter (x =.) (filter P l)) = length (filter (x =.) l).
Proof.
  intros Hx. induction l as [|y l IH]; [done|].
  rewrite (filter_cons (x =.) y l).
  destruct (decide (x = y)) as [<- | Hne].
  - rewrite (filter_cons P), decide_True by done.
    rewrite filter_cons, decide_True by done. simpl. by rewrite IH.
  - rewrite (filter_cons P). destruct (decide (P y)); [|done].
    by rewrite filter_cons, decide_False.
Qed.

(** ** The loop over the jobs *)

Lemma for_each_convert_all args (jobs : list string) (st : State) :
  for_each jobs (fun mesh_path =>
                   call_run_convert mesh_path (dest_path_of args mesh_path)) st
  = let '(r, w, started) := convert_all args jobs (world st) in
    (item_outcome r,
     {| world := w;
        trace := trace st ++
                   ((fun j => CallRunConvert j (dest_path_of args j)) <$> started) |}).
Proof.
  revert st. induction jobs as [|job jobs IH]; intros [w tr]; simpl.
  - unfold ret. by rewrite app_nil_r.
  - unfold mbind, M_bind, bind, call_run_convert, mbind, M_bind, bind, record,
      collaborate, log. simpl.
    destruct (run_convert job (dest_path_of args job) w) as [[[]|f] w'] eqn:Hrun.
    + rewrite IH. simpl.
      destruct (convert_all args jobs w') as [[r w''] started].
      simpl. by rewrite <- app_assoc.
    + done.
Qed.

Lemma convert_all_started args (jobs : list string) w r w' started :
  convert_all args jobs w = (r, w', started) →
  started `prefix_of` jobs ∧ (r = Ok () → started = jobs).
Proof.
  revert w r w' started. induction jobs as [|job jobs IH]; intros w r w' started; simpl.
  - intros [= <- <- <-]. done.
  - destruct (run_convert job (dest_path_of args job) w) as [[[]|f] w1].
    + destruct (convert_all args jobs w1) as [[r1 w2] started1] eqn:Hall.
      intros [= <- <- <-]. destruct (IH _ _ _ _ Hall) as [Hpre Hok].
      split; [by apply prefix_cons | intros Hr; by rewrite Hok].
    + intros [= <- <- <-]. split; [|done].
      apply prefix_cons, prefix_nil.
Qed.

(** The runner, written out: the swap, the report, the conversions, the
    restoration. *)
Lemma run_unfold args (jobs : list string) (st : State) :
  let original := builtins_print (world st) in
  let w1 := {| builtins_print := tqdm_write; host := host (world st) |} in
  let report := CallPrint tqdm_write (NumberOfFilesToConvert (length jobs)) in
  run args jobs st =
    match call tqdm_write (NumberOfFilesToConvert (length jobs)) w1 with
    | (Ok _, w2) =>
        let '(r, w3, started) := convert_all args jobs w2 in
        (item_outcome r,
         {| world := {| builtins_print := original; host := host w3 |};
            trace := trace st ++ [AssignPrint tqdm_write; report] ++
                       ((fun j => CallRunConvert j (dest_path_of args j)) <$> started) ++
                       [AssignPrint original] |})
    | (Raise f, w2) =>
        (Raise (ItemFailure f),
         {| world := {| builtins_print := original; host := host w2 |};
            trace := trace st ++ [AssignPrint tqdm_write; report; AssignPrint original] |})
    end.
Proof.
  destruct st as [[p0 h0] tr]. cbn zeta. simpl.
  unfold run, mbind, M_bind, bind, get_print, set_print, try_finally, print,
    mbind, M_bind, bind, get_print, record, collaborate, log, tqdm. simpl.
  destruct (call tqdm_write (NumberOfFilesToConvert (length jobs))
              {| builtins_print := tqdm_write; host := h0 |}) as [[[]|f] w2] eqn:Hcall.
  - rewrite for_each_convert_all, drop_0. simpl.
    destruct (convert_all args jobs w2) as [[r w3] started]. simpl.
    by rewrite <- !app_assoc.
  - simpl. by rewrite <- !app_assoc.
Qed.

End Batch.

(** * Properties of the selection and of the runner *)

Section BatchProperties.
Import Spec Convert.
Context `{Platform}.

(** C5.  Whatever the report and the conversions do, and even when one of
    them rebinds [builtins.print] itself, the runner leaves
    [builtins.print] equal to the printer that was bound when the runner
    started, and rebinding it is the last thing the runner does.  A failure
    raised by the report, or by the conversion of a job, is the exception
    that leaves the runner, unchanged, in a state where the printer is
    restored. *)
Theorem run_restores_print args (jobs : list string) (st : State) :
  let original := builtins_print (world st) in
  let w1 := {| builtins_print := tqdm_write; host := host (world st) |} in
  let report := NumberOfFilesToConvert (length jobs) in
  builtins_print (world (run args jobs st).2) = original ∧
  last (trace (run args jobs st).2) = Some (AssignPrint original) ∧
  (∀ f w2,
      call tqdm_write report w1 = (Raise f, w2) →
      (run args jobs st).1 = Raise (ItemFailure f)) ∧
  (∀ w2 f w3 started,
      call tqdm_write report w1 = (Ok (), w2) →
      convert_all args jobs w2 = (Raise f, w3, started) →
      (run args jobs st).1 = Raise (ItemFailure f) ∧
      world (run args jobs st).2 = {| builtins_print := original; host := host w3 |}).
Proof.
  cbn zeta. rewrite run_unfold. cbn zeta.
  destruct (call tqdm_write (NumberOfFilesToConvert (length jobs)) _)
    as [[[]|f0] w0] eqn:Hcall.
  - destruct (convert_all args jobs w0) as [[r w3] started] eqn:Hall. simpl.
    split_and!; [done | | done |].
    + rewrite last_app. cbn [app]. by rewrite !last_cons, last_snoc.
    + intros w2 f w3' started' [= <-]. rewrite Hall. by intros [= -> <- <-].
  - simpl. split_and!; [done | | by intros f w2 [= -> <-] | done].
    by rewrite last_app.
Qed.

(** C6.  With a non-empty allowed set the filter keeps exactly the
    discovered files whose path relative to the input root has its first
    segment in the set: the result is the discovered list with the other
    entries removed, so the order is kept and a path listed twice stays
    twice.  The first segment is what stands before the first separator,
    and the whole relative path when it holds no separator, as for a file
    lying in the input root.  This is the list [main] hands to the runner
    when [--subdirs] expands to a non-empty list of names. *)
Theorem filter_step_keeps_allowed args (allowed : gset string) (meshes : list string) :
  allowed ≠ ∅ →
  let kept := filter_step args allowed meshes in
  kept = filter (fun p => top_of args p ∈ allowed) meshes ∧
  (∀ p, p ∈ kept ↔ p ∈ meshes ∧ top_of args p ∈ allowed) ∧
  kept `sublist_of` meshes ∧
  (∀ p, top_of args p ∈ allowed →
        length (filter (p =.) kept) = length (filter (p =.) meshes)) ∧
  (∀ rel : string, ¬ occurs (String os_sep "") rel → top_segment rel = rel) ∧
  (∀ a b : string, ¬ occurs (String os_sep "") a →
                   top_segment (a +:+ String os_sep b) = a) ∧
  (∀ (s : string) names st,
      subdirs args = Some s → truthy s = true →
      expand_range (strip s) = Ok names → list_to_set names = allowed →
      select args meshes st
      = (print (LookingInSubdirectories allowed);; ret kept) st).
Proof.
  intros Hne. cbn zeta. unfold filter_step. rewrite decide_True by done.
  rewrite filter_allowed_filter. split_and!.
  - done.
  - intros p. by rewrite list_elem_of_filter, (comm and).
  - apply sublist_filter.
  - intros p Hp. by apply filter_occurrences.
  - apply top_segment_whole.
  - apply top_segment_cut.
  - intros s names st Hs Ht Hnames <-. unfold select. rewrite Hs, Ht, Hnames.
    unfold mbind at 1, M_bind at 1, bind at 1, lift. unfold filter_step.
    by rewrite decide_True, filter_allowed_filter by done.
Qed.

(** C7.  Applying the filter step twice with the same allowed set and the
    same input root gives the same list as applying it once. *)
Theorem filter_step_idempotent args (allowed : gset string) (meshes : list string) :
  filter_step args allowed (filter_step args allowed meshes)
  = filter_step args allowed meshes.
Proof.
  unfold filter_step. destruct (decide (allowed ≠ ∅)); [|done].
  rewrite !filter_allowed_filter. apply filter_filter_same.
Qed.

(** C8.  The runner reports the number of jobs once, before any
    conversion, and then converts the jobs one by one in the order of the
    list, each in the world that the one before it left behind.  What it
    does is the rebinding of [print], the report, one call of [run_convert]
    for each job of an initial part of the list, and the restoration; when it
    returns normally that initial part is the whole list.  The outcome and
    the host it leaves are those of running [run_convert] once on each job
    in turn, from the world left by the report, up to the first failure; a
    failure of the report itself leaves before any conversion. *)
Theorem run_converts_each_job_once args (jobs : list string) (st st' : State) r :
  run args jobs st = (r, st') →
  let original := builtins_print (world st) in
  let w1 := {| builtins_print := tqdm_write; host := host (world st) |} in
  let report := NumberOfFilesToConvert (length jobs) in
  ∃ started,
    started `prefix_of` jobs ∧
    trace st' =
      trace st ++
      [AssignPrint tqdm_write; CallPrint tqdm_write report] ++
      ((fun j => CallRunConvert j (dest_path_of args j)) <$> started) ++
      [AssignPrint original] ∧
    (r = Ok () → started = jobs) ∧
    match call tqdm_write report w1 with
    | (Ok _, w2) =>
        ∃ r0 w3,
          convert_all args jobs w2 = (r0, w3, started) ∧
          r = item_outcome r0 ∧
          world st' = {| builtins_print := original; host := host w3 |}
    | (Raise f, w2) =>
        started = [] ∧ r = Raise (ItemFailure f) ∧
        world st' = {| builtins_print := original; host := host w2 |}
    end.
Proof.
  rewrite run_unfold. cbn zeta.
  destruct (call tqdm_write (NumberOfFilesToConvert (length jobs)) _)
    as [[[]|f0] w0] eqn:Hcall.
  - destruct (convert_all args jobs w0) as [[r0 w3] started] eqn:Hall.
    intros [= <- <-]. exists started.
    destruct (convert_all_started _ _ _ _ _ _ Hall) as [Hpre Hok].
    split_and!; [done | done | |].
    + intros Hr. apply Hok. by destruct r0 as [[]|].
    + by exists r0, w3.
  - intros [= <- <-]. exists []. split_and!; [apply prefix_nil | done..].
Qed.

(** C9.  When [--subdirs] is given and its expansion is the empty list,
    the allowed set is empty, the filter is skipped and the job list is the
    whole list of discovered files: [main] prints the empty set and runs the
    batch on everything it discovered.  The specification ["a5..a5"], with
    equal endpoints, expands to the empty list. *)
Theorem empty_expansion_selects_all args (s : string) (meshes : list string) (st : State) :
  subdirs args = Some s → truthy s = true →
  expand_range (strip s) = Ok [] →
  filter_step args ∅ meshes = meshes ∧
  select args meshes st
  = (print (LookingInSubdirectories ∅);; ret meshes) st ∧
  main args st
  = (print (LookingInSubdirectories ∅);; run args (discover args)) st ∧
  expand_range "a5..a5" = Ok [].
Proof.
  intros Hs Ht Hexp.
  assert (∀ l : list string, filter_step args ∅ l = l) as Hskip.
  { intros l. unfold filter_step. by rewrite decide_False by (by intros []). }
  assert (∀ l st0, select args l st0
            = (print (LookingInSubdirectories ∅);; ret l) st0) as Hsel.
  { intros l st0. unfold select. rewrite Hs, Ht, Hexp.
    unfold mbind at 1, M_bind at 1, bind at 1, lift. simpl. by rewrite Hskip. }
  split_and!; [done | done | | by vm_compute].
  unfold main. unfold mbind at 1, M_bind at 1, bind at 1. rewrite Hsel.
  unfold mbind, M_bind, bind, ret.
  by destruct (print (LookingInSubdirectories ∅) st) as [[[]|e] st1].
Qed.

End BatchProperties.

Section BatchExamples.
Import Spec Convert.

Lemma run_restores_print_witness :
  let jobs := ["/in/000-001/a.glb"; "/in/000-007/bad.glb"; "/in/top.glb"] in
  (@run Demo.platform (Demo.args None) jobs Demo.initial).1
    = Raise (@ItemFailure Demo.platform "Invalid mesh file path") ∧
  world (@run Demo.platform (Demo.args None) jobs Demo.initial).2
    = Build_World nat (list string) 0%nat ["/out/000-001/a/a.usd"].
Proof.
  cbn zeta.
  destruct (@run_restores_print Demo.platform (Demo.args None)
              ["/in/000-001/a.glb"; "/in/000-007/bad.glb"; "/in/top.glb"]
              Demo.initial) as (_ & _ & _ & Hfail).
  exact (Hfail (Build_World nat (list string) 1%nat [])
               "Invalid mesh file path"
               (Build_World nat (list string) 7%nat ["/out/000-001/a/a.usd"])
               ["/in/000-001/a.glb"; "/in/000-007/bad.glb"]
               eq_refl eq_refl).
Defined.

Lemma filter_step_keeps_allowed_witness :
  @filter_step Demo.platform (Demo.args None) {[ "000-001"; "top.glb" ]}
    (@discover Demo.platform (Demo.args None))
  = ["/in/000-001/a.glb"; "/in/top.glb"; "/in/000-001/a.glb"].
Proof.
  destruct (@filter_step_keeps_allowed Demo.platform (Demo.args None)
              {[ "000-001"; "top.glb" ]}
              (@discover Demo.platform (Demo.args None))) as (-> & _).
  - set_solver.
  - by vm_compute.
Defined.

Lemma run_converts_each_job_once_witness :
  let jobs := ["/in/000-001/a.glb"; "/in/000-002/b.obj"] in
  (@run Demo.platform (Demo.args None) jobs Demo.initial).1 = Ok () ∧
  trace (@run Demo.platform (Demo.args None) jobs Demo.initial).2
  = [@AssignPrint Demo.platform 1%nat;
     @CallPrint Demo.platform 1%nat (NumberOfFilesToConvert 2);
     @CallRunConvert Demo.platform "/in/000-001/a.glb" "/out/000-001/a/a.usd";
     @CallRunConvert Demo.platform "/in/000-002/b.obj" "/out/000-002/b/b.usd";
     @AssignPrint Demo.platform 0%nat] ∧
  world (@run Demo.platform (Demo.args None) jobs Demo.initial).2
  = Build_World nat (list string) 0%nat
      ["/out/000-001/a/a.usd"; "/out/000-002/b/b.usd"].
Proof.
  cbn zeta. split; [reflexivity|].
  destruct (@run_converts_each_job_once Demo.platform (Demo.args None)
              ["/in/000-001/a.glb"; "/in/000-002/b.obj"] Demo.initial
              (@run Demo.platform (Demo.args None)
                 ["/in/000-001/a.glb"; "/in/000-002/b.obj"] Demo.initial).2
              (Ok ()) eq_refl)
    as (started & _ & Htrace & Hall & Hworld).
  split.
  - rewrite Htrace, (Hall eq_refl). reflexivity.
  - destruct Hworld as (r0 & w3 & Hconv & _ & ->).
    rewrite (Hall eq_refl) in Hconv. by injection Hconv as _ <-.
Defined.

Lemma empty_expansion_selects_all_witness :
  (@select Demo.platform (Demo.args (Some " a5..a5 "))
     (@discover Demo.platform (Demo.args None)) Demo.initial).1
  = Ok ["/in/000-001/a.glb"; "/in/000-007/bad.glb"; "/in/top.glb";
        "/in/000-001/a.glb"; "/in/000-002/b.obj"].
Proof.
  destruct (@empty_expansion_selects_all Demo.platform
              (Demo.args (Some " a5..a5 ")) " a5..a5 "
              (@discover Demo.platform (Demo.args None)) Demo.initial
              eq_refl eq_refl eq_refl) as (_ & -> & _).
  by vm_compute.
Defined.

End BatchExamples.

(** * More about the range language *)

Section RangeRoundTrips.
Import Spec.

(** X1.  A string is rebuilt from what [split_prefix_num] returns for it.
    Without a number the prefix is the string and the width is [0].  With a
    number [k] and a width [w], the string is the prefix, followed by a run
    [g] of [w] characters that [int] reads as [k], possibly followed by one
    final line feed; [w] is positive and within the limit of [int],
    [0 <= k < 10 ^ w], the prefix does not end with one of the digits [0]
    to [9], and a run [g] made of these digits is [k] zero-padded to [w]
    digits. *)
Theorem split_prefix_num_rebuilds (s p : string) n w :
  split_prefix_num s = Ok (p, n, w) →
  match n with
  | None => p = s ∧ w = 0%nat
  | Some k =>
      ∃ g,
        (s = p +:+ g ∨ s = p +:+ g +:+ String LF "") ∧
        len g = w ∧ int g = Some k ∧
        (0 < w ≤ int_max_str_digits)%nat ∧ 0 ≤ k < 10 ^ Z.of_nat w ∧
        ends_with_digit p = false ∧
        (all_digits g = true → g = zero_pad k w)
  end.
Proof.
  intros Hs. destruct n as [k|].
  - destruct (split_prefix_num_number _ _ _ _ Hs)
      as (ds & Hne & Hall & Hk & Hw & _ & Hshape).
    destruct (split_prefix_num_width _ _ _ _ Hs) as (Hlim & Hb).
    exists ds. subst k w.
    split_and!; [done | done | apply int_digits; [done | done | lia]
                 | lia | lia | lia | lia | by eapply split_prefix_num_prefix |].
    intros _. by rewrite zero_pad_digits.
  - by destruct (split_prefix_num_no_number _ _ _ Hs) as (-> & -> & _).
Qed.

Lemma split_prefix_num_rebuilds_witness :
  ∃ g,
    ("img042" +:+ String LF "" = "img" +:+ g ∨
     "img042" +:+ String LF "" = "img" +:+ g +:+ String LF "") ∧
    len g = 3%nat ∧ int g = Some 42 ∧
    (0 < 3 ≤ int_max_str_digits)%nat ∧ 0 ≤ 42 < 10 ^ Z.of_nat 3 ∧
    ends_with_digit "img" = false ∧
    (all_digits g = true → g = zero_pad 42 3).
Proof.
  exact (split_prefix_num_rebuilds ("img042" +:+ String LF "") "img" (Some 42) 3
           eq_refl).
Defined.



(** X3.  The names that [expand_range] returns are pairwise distinct, so
    the set built from them has as many elements as the range has
    numbers. *)
Theorem expand_range_names_distinct (spec : string) (names : list string) :
  expand_range spec = Ok names →
  NoDup names ∧ size (list_to_set names : gset string) = length names.
Proof.
  intros Hok.
  assert (NoDup names) as Hnd.
  { destruct (expand_range_shape _ _ Hok)
      as (p & n1 & n2 & width & Hp & Hw & Hn & Hb & ->).
    apply NoDup_fmap_2_strong; [|apply NoDup_seqZ].
    intros i j Hi Hj Heq. apply elem_of_seqZ in Hi, Hj.
    apply (inj (String.app p)) in Heq.
    destruct (zero_pad_exact i width (proj1 Hw)) as (_ & _ & _ & <-); [lia|].
    destruct (zero_pad_exact j width (proj1 Hw)) as (_ & _ & _ & <-); [lia|].
    by rewrite Heq. }
  split; [done|]. by apply size_list_to_set.
Qed.

Lemma expand_range_names_distinct_witness :
  size (list_to_set ["a08"; "a09"; "a10"] : gset string) = 3%nat.
Proof.
  by destruct (expand_range_names_distinct "a08..a11" ["a08"; "a09"; "a10"] eq_refl)
    as [_ ->].
Defined.

End RangeRoundTrips.

Section RangeErrors.
Import Spec.

(** X5.  What [expand_range] raises, and why.  The error of a missing
    [..] is raised when [..] does not occur; the error of a missing number
    when both sides of the first [..] are parsed and one has no number; the
    error of differing prefixes, carrying the two prefixes, when both sides
    have numbers and the prefixes differ; the error of the order when the
    prefixes agree and the left number is greater.  The only other error is
    the refusal, by [int], of a run of more than [int_max_str_digits]
    digits, raised while a side is parsed, the left one first.  The error
    of the unpacking never leaves it. *)
Theorem expand_range_error_cause (spec : string) (m : message) :
  expand_range spec = Raise (ValueError m) →
  match m with
  | RangeMustContainDots => ¬ occurs ".." spec
  | BothEndpointsMustEndWithNumber =>
      ∃ l r p1 n1 w1 p2 n2 w2,
        first_cut ".." spec l r ∧
        split_prefix_num l = Ok (p1, n1, w1) ∧
        split_prefix_num r = Ok (p2, n2, w2) ∧ (n1 = None ∨ n2 = None)
  | PrefixesDiffer p1 p2 =>
      ∃ l r n1 w1 n2 w2,
        first_cut ".." spec l r ∧
        split_prefix_num l = Ok (p1, Some n1, w1) ∧
        split_prefix_num r = Ok (p2, Some n2, w2) ∧ p1 ≠ p2
  | StartIsGreaterThanEnd =>
      ∃ l r p n1 w1 n2 w2,
        first_cut ".." spec l r ∧
        split_prefix_num l = Ok (p, Some n1, w1) ∧
        split_prefix_num r = Ok (p, Some n2, w2) ∧ n2 < n1
  | InvalidIntLiteral g =>
      (int_max_str_digits < len g)%nat ∧
      ∃ l r,
        first_cut ".." spec l r ∧
        (split_prefix_num l = Raise (ValueError m) ∨
         returns (split_prefix_num l) ∧
         split_prefix_num r = Raise (ValueError m))
  | CannotUnpack _ => False
  end.
Proof.
  intros Hraise.
  destruct (contains ".." spec) eqn:Hc.
  - destruct (contains_first_cut _ _ Hc) as (l & r & Hcut).
    rewrite (expand_range_cut _ _ _ Hcut) in Hraise.
    destruct (split_prefix_num l) as [[[p1 n1] w1]|e1] eqn:Hl.
    + destruct (split_prefix_num r) as [[[p2 n2] w2]|e2] eqn:Hr.
      * simpl in Hraise. destruct n1 as [n1|]; [destruct n2 as [n2|]|].
        -- destruct (String.eqb p1 p2) eqn:Hp; simpl in Hraise.
           ++ apply String.eqb_eq in Hp as <-.
              destruct (n1 >? n2) eqn:Hn; [|done]. injection Hraise as <-.
              exists l, r, p1, n1, w1, n2, w2. split_and!; [done | done | done | lia].
           ++ apply String.eqb_neq in Hp. injection Hraise as <-.
              by exists l, r, n1, w1, n2, w2.
        -- injection Hraise as <-. exists l, r, p1, (Some n1), w1, p2, None, w2.
           split_and!; [done | done | done | by right].
        -- assert (m = BothEndpointsMustEndWithNumber) as ->
             by (destruct n2; by injection Hraise as <-).
           exists l, r, p1, None, w1, p2, n2, w2.
           split_and!; [done | done | done | by left].
      * simpl in Hraise. injection Hraise as ->.
        destruct (split_prefix_num_Raise _ _ Hr) as (p & g & [= ->] & _ & Hlen & _).
        split; [done|]. exists l, r. split; [done|]. right. split; [by eexists | done].
    + simpl in Hraise. injection Hraise as ->.
      destruct (split_prefix_num_Raise _ _ Hl) as (p & g & [= ->] & _ & Hlen & _).
      split; [done|]. exists l, r. split; [done|]. by left.
  - unfold expand_range in Hraise. rewrite Hc in Hraise. injection Hraise as <-.
    intros Hocc. apply contains_occurs in Hocc. congruence.
Qed.

Lemma expand_range_error_cause_witness :
  ∃ l r n1 w1 n2 w2,
    first_cut ".." "x5..y9" l r ∧
    split_prefix_num l = Ok ("x", Some n1, w1) ∧
    split_prefix_num r = Ok ("y", Some n2, w2) ∧ "x" ≠ "y".
Proof.
  exact (expand_range_error_cause "x5..y9" (PrefixesDiffer "x" "y") eq_refl).
Defined.

End RangeErrors.

(** * More about [main] *)

Section Stripping.
Import More.

Lemma lstrip_all_space (s : string) : all_space s = true → lstrip s = "".
Proof.
  induction s as [|c s IH]; [done|]. simpl. intros Hs.
  apply andb_true_iff in Hs as [-> Hs]. by apply IH.
Qed.

Lemma lstrip_starts_clean (s : string) : starts_clean (lstrip s).
Proof.
  induction s as [|c s IH]; [done|]. simpl.
  destruct (is_space c) eqn:Hc; [done | by simpl].
Qed.

Lemma lstrip_clean (s : string) : starts_clean s → lstrip s = s.
Proof. destruct s as [|c s]; [done|]. simpl. by intros ->. Qed.

Lemma rstrip_starts_clean (s : string) : starts_clean s → starts_clean (rstrip s).
Proof.
  destruct s as [|c s]; [done|]. simpl. intros Hc.
  destruct (rstrip s); [by rewrite Hc | done].
Qed.

Lemma rstrip_rstrip (s : string) : rstrip (rstrip s) = rstrip s.
Proof.
  induction s as [|c s IH]; [done|]. cbn [rstrip].
  destruct (rstrip s) as [|c' r'] eqn:Hr.
  - destruct (is_space c) eqn:Hc; [done|]. simpl. by rewrite Hc.
  - cbn [rstrip]. cbn [rstrip] in IH. by rewrite IH.
Qed.

Lemma strip_strip (s : string) : strip (strip s) = strip s.
Proof.
  unfold strip.
  rewrite (lstrip_clean (rstrip (lstrip s)))
    by apply rstrip_starts_clean, lstrip_starts_clean.
  apply rstrip_rstrip.
Qed.

Lemma strip_all_space (s : string) : all_space s = true → strip s = "".
Proof. intros Hs. unfold strip. by rewrite lstrip_all_space. Qed.

End Stripping.

Section MainPaths.
Import Spec More Convert.
Context `{Platform}.

(** X6.  A refused [--subdirs] stops [main] before it does anything that
    shows: the exception of [expand_range] leaves [main], nothing has been
    printed, [builtins.print] has not been rebound and no conversion has been
    started. *)
Theorem main_refused_spec_is_inert args (s : string) (e : exn) (st : State) :
  subdirs args = Some s → truthy s = true →
  expand_range (strip s) = Raise e →
  main args st = (Raise (InvalidSpec e), st).
Proof.
  intros Hs Ht He. unfold main, select. rewrite Hs, Ht, He.
  by unfold mbind, M_bind, bind, lift.
Qed.

(** X7.  Only the truth value of [--subdirs] decides whether a range is
    read.  Without the option, or with the empty string, [main] runs the
    batch on every discovered file and prints nothing before the runner
    starts.  A value made of white space only is not taken as absent: it is
    stripped to the empty string, which holds no [..], and [main] stops with
    the error of the missing [..] before doing anything else. *)
Theorem main_subdirs_truth_value args (st : State) :
  (subdirs args = None ∨ subdirs args = Some "" →
   main args st = run args (discover args) st) ∧
  (∀ s : string,
      subdirs args = Some s → s ≠ "" → all_space s = true →
      main args st = (Raise (InvalidSpec (ValueError RangeMustContainDots)), st)).
Proof.
  split.
  - intros [Hs | Hs]; unfold main, select; rewrite Hs; simpl;
      by unfold mbind, M_bind, bind, ret.
  - intros s Hs Hne Hsp. unfold main, select. rewrite Hs.
    assert (truthy s = true) as -> by (by destruct s).
    rewrite strip_all_space by done.
    by unfold mbind, M_bind, bind, lift.
Qed.

(** X8.  White space around the value of [--subdirs] changes nothing:
    [main] behaves on [s] as on [s.strip()], whenever the latter is not
    empty. *)
Theorem main_ignores_outer_space args (s : string) (st : State) :
  subdirs args = Some s → strip s ≠ "" →
  main args st
  = main {| input := input args; output := output args;
            subdirs := Some (strip s) |} st.
Proof.
  intros Hs Hne.
  assert (truthy s = true) as Ht.
  { destruct s; [by destruct Hne | done]. }
  assert (truthy (strip s) = true) as Ht' by (by destruct (strip s)).
  unfold main, select. cbn [subdirs]. rewrite Hs, Ht, Ht', strip_strip.
  reflexivity.
Qed.

End MainPaths.

Section MainPathExamples.
Import Spec More Convert.

Lemma main_refused_spec_is_inert_witness :
  @main Demo.platform (Demo.args (Some "000-009..000-001")) Demo.initial
  = (Raise (@InvalidSpec Demo.platform (ValueError StartIsGreaterThanEnd)), Demo.initial).
Proof.
  exact (@main_refused_spec_is_inert Demo.platform
           (Demo.args (Some "000-009..000-001")) "000-009..000-001"
           (ValueError StartIsGreaterThanEnd) Demo.initial eq_refl eq_refl eq_refl).
Defined.

Lemma main_subdirs_truth_value_witness :
  @main Demo.platform (Demo.args (Some "")) Demo.initial
  = @run Demo.platform (Demo.args (Some "")) (@discover Demo.platform (Demo.args (Some "")))
      Demo.initial ∧
  @main Demo.platform (Demo.args (Some "  ")) Demo.initial
  = (Raise (@InvalidSpec Demo.platform (ValueError RangeMustContainDots)), Demo.initial).
Proof.
  destruct (@main_subdirs_truth_value Demo.platform (Demo.args (Some "")) Demo.initial)
    as [Hnone _].
  destruct (@main_subdirs_truth_value Demo.platform (Demo.args (Some "  ")) Demo.initial)
    as [_ Hblank].
  split; [apply Hnone; by right | by apply (Hblank "  ")].
Defined.

Lemma main_ignores_outer_space_witness :
  @main Demo.platform (Demo.args (Some " 000-001..000-003 ")) Demo.initial
  = @main Demo.platform (Demo.args (Some "000-001..000-003")) Demo.initial.
Proof.
  exact (@main_ignores_outer_space Demo.platform
           (Demo.args (Some " 000-001..000-003 ")) " 000-001..000-003 "
           Demo.initial eq_refl ltac:(by vm_compute)).
Defined.

End MainPathExamples.

Section BatchMore.
Import Spec More Convert.
Context `{Platform}.

Lemma convert_all_Ok args (jobs : list string) w w' started :
  convert_all args jobs w = (Ok (), w', started) → started = jobs.
Proof. intros Hall. by destruct (convert_all_started _ _ _ _ _ _ Hall) as [_ ->]. Qed.

Lemma convert_all_app args (done rest : list string) w w' :
  convert_all args done w = (Ok (), w', done) →
  convert_all args (done ++ rest) w
  = let '(r, w'', started) := convert_all args rest w' in (r, w'', done ++ started).
Proof.
  revert w. induction done as [|job done IH]; intros w; simpl.
  - intros [= ->]. by destruct (convert_all args rest w') as [[r w''] started].
  - destruct (run_convert job (dest_path_of args job) w) as [[[]|f] w1]; [|done].
    destruct (convert_all args done w1) as [[r1 w2] started1] eqn:Hall.
    intros [= -> -> ->]. rewrite (IH _ Hall).
    by destruct (convert_all args rest w') as [[r w''] started].
Qed.

(** X9.  The first conversion that fails ends the batch.  When the report
    and the conversions of the jobs [done] succeed and the conversion of the
    next job raises [f], the runner raises [f]; it has started the
    conversions of [done] and of that job, in order, and of none of the jobs
    behind it; [builtins.print] is restored and the rest of the process is as
    the failed conversion left it. *)
Theorem run_stops_at_first_failure args (done rest : list string) (job : string)
    (st : State) w2 w3 w4 f :
  let jobs := done ++ job :: rest in
  let original := builtins_print (world st) in
  call tqdm_write (NumberOfFilesToConvert (length jobs))
       {| builtins_print := tqdm_write; host := host (world st) |} = (Ok (), w2) →
  convert_all args done w2 = (Ok (), w3, done) →
  run_convert job (dest_path_of args job) w3 = (Raise f, w4) →
  run args jobs st =
    (Raise (ItemFailure f),
     {| world := {| builtins_print := original; host := host w4 |};
        trace := trace st ++
                 [AssignPrint tqdm_write;
                  CallPrint tqdm_write (NumberOfFilesToConvert (length jobs))] ++
                 ((fun j => CallRunConvert j (dest_path_of args j)) <$> (done ++ [job])) ++
                 [AssignPrint original] |}).
Proof.
  cbn zeta. intros Hcall Hdone Hjob. rewrite run_unfold. cbn zeta.
  rewrite Hcall, (convert_all_app _ _ _ _ _ Hdone). simpl. by rewrite Hjob.
Qed.

(** ** The first path segment, again *)

Lemma not_occurs_cons c (a : string) sep :
  c ≠ sep → ¬ occurs (String sep "") a → ¬ occurs (String sep "") (String c a).
Proof.
  intros Hc Hno (x & y & Heq). destruct x as [|c' x].
  - rewrite append_empty_l, append_cons in Heq. by injection Heq.
  - rewrite append_cons in Heq. injection Heq as -> ->. apply Hno. by exists x, y.
Qed.

Lemma top_segment_shape (rel : string) :
  ¬ occurs (String os_sep "") (top_segment rel) ∧
  (rel = top_segment rel ∨ ∃ rest, rel = top_segment rel +:+ String os_sep rest).
Proof.
  unfold top_segment. induction rel as [|c a [IHno IHshape]].
  - simpl. split; [|by left]. intros ([|??] & y & Heq); done.
  - simpl. destruct (Ascii.eqb c os_sep) eqn:Hc.
    + apply Ascii.eqb_eq in Hc as ->. split.
      * intros ([|??] & y & Heq); done.
      * right. by exists a.
    + apply Ascii.eqb_neq in Hc.
      destruct (split_char os_sep a) as [|top pieces]; simpl in *.
      * split; [by apply not_occurs_cons|].
        destruct IHshape as [-> | [rest ->]]; [by left|].
        right. by exists rest.
      * split; [by apply not_occurs_cons|].
        destruct IHshape as [Heq | [rest Heq]]; [left | right; exists rest];
          by rewrite ?append_cons, <- Heq.
Qed.

(** X10.  The first path segment holds no separator, and the relative path
    is that segment alone or that segment, a separator and a rest.  So a name
    that holds a separator matches no file: if every allowed name holds one,
    the filter keeps nothing. *)
Theorem top_segment_has_no_separator args (allowed : gset string) (meshes : list string) :
  (∀ rel : string,
      ¬ occurs (String os_sep "") (top_segment rel) ∧
      (rel = top_segment rel ∨ ∃ rest, rel = top_segment rel +:+ String os_sep rest)) ∧
  ((∀ name, name ∈ allowed → occurs (String os_sep "") name) →
   filter_allowed args allowed meshes = []).
Proof.
  split; [apply top_segment_shape|].
  intros Hsep. rewrite filter_allowed_filter.
  induction meshes as [|p meshes IH]; [done|].
  rewrite filter_cons, decide_False; [done|].
  intros Hin. apply Hsep in Hin.
  by destruct (top_segment_shape (relpath p (input args))) as [Hno _].
Qed.

(** ** The destination of a conversion *)

Lemma slice_to_neg_append (a b : string) k :
  len b = k → slice_to_neg k (a +:+ b) = a.
Proof.
  intros <-. unfold slice_to_neg. rewrite len_append.
  replace (len a + len b - len b)%nat with (len a) by lia.
  apply slice_to_append.
Qed.

(** X11.  Where a mesh is written.  When the mesh path, moved under the
    output root, is [base] followed by a dot and an extension of three
    characters, and its file name is [stem] followed by that kind of
    extension, the destination is the file [stem + "usd"] inside the
    directory [base]: each mesh gets a directory of its own, named after the
    mesh without its extension. *)
Theorem dest_path_layout args (mesh_path base dot_ext stem ext : string) :
  len dot_ext = 4%nat → len ext = 3%nat →
  join (output args) (relpath mesh_path (input args)) = base +:+ dot_ext →
  split_tail (relpath mesh_path (input args)) = stem +:+ ext →
  dest_path_of args mesh_path = join base (stem +:+ "usd").
Proof.
  intros Hd He Hjoin Htail. unfold dest_path_of. cbn zeta.
  by rewrite Hjoin, Htail, !slice_to_neg_append.
Qed.

(** ** The filter and the order of discovery *)

(** X12.  The filter works file by file: filtering a concatenation is
    concatenating the filtered parts, so the files found for one extension
    keep standing before those found for the next; and a larger allowed set
    keeps every file that a smaller, non-empty one keeps. *)
Theorem filter_step_by_parts args (allowed allowed' : gset string)
    (part1 part2 meshes : list string) :
  filter_step args allowed (part1 ++ part2)
  = filter_step args allowed part1 ++ filter_step args allowed part2 ∧
  (allowed ≠ ∅ → allowed ⊆ allowed' →
   filter_step args allowed meshes `sublist_of` filter_step args allowed' meshes).
Proof.
  split.
  - unfold filter_step. destruct (decide (allowed ≠ ∅)); [|done].
    rewrite !filter_allowed_filter. apply filter_app.
  - intros Hne Hsub. unfold filter_step.
    assert (allowed' ≠ ∅) as Hne' by set_solver.
    rewrite !decide_True, !filter_allowed_filter by done.
    induction meshes as [|p meshes IH]; [done|].
    rewrite !filter_cons.
    destruct (decide (top_of args p ∈ allowed)) as [Hin|Hout].
    + rewrite decide_True by set_solver. by apply sublist_skip.
    + destruct (decide (top_of args p ∈ allowed')); [by apply sublist_cons | done].
Qed.

End BatchMore.

Section BatchMoreExamples.
Import Spec More Convert.

Lemma run_stops_at_first_failure_witness :
  (@run Demo.platform (Demo.args None)
     (["/in/000-001/a.glb"] ++ "/in/000-007/bad.glb" :: ["/in/top.glb"])
     Demo.initial).1
  = Raise (@ItemFailure Demo.platform "Invalid mesh file path").
Proof.
  by rewrite (@run_stops_at_first_failure Demo.platform (Demo.args None)
                ["/in/000-001/a.glb"] ["/in/top.glb"] "/in/000-007/bad.glb"
                Demo.initial
                (Build_World nat (list string) 1%nat [])
                (Build_World nat (list string) 1%nat ["/out/000-001/a/a.usd"])
                (Build_World nat (list string) 7%nat ["/out/000-001/a/a.usd"])
                "Invalid mesh file path" eq_refl eq_refl eq_refl).
Defined.

Lemma top_segment_has_no_separator_witness :
  @filter_allowed Demo.platform (Demo.args None) {[ "000-001/a.glb" ]}
    (@discover Demo.platform (Demo.args None)) = [].
Proof.
  destruct (@top_segment_has_no_separator Demo.platform (Demo.args None)
              {[ "000-001/a.glb" ]} (@discover Demo.platform (Demo.args None)))
    as [_ Hnone].
  apply Hnone. intros name Hname. apply elem_of_singleton in Hname as ->.
  by exists "000-001", "a.glb".
Defined.

Lemma dest_path_layout_witness :
  @dest_path_of Demo.platform (Demo.args None) "/in/000-001/a.glb"
  = "/out/000-001/a" +:+ "/" +:+ "a." +:+ "usd".
Proof.
  exact (@dest_path_layout Demo.platform (Demo.args None) "/in/000-001/a.glb"
           "/out/000-001/a" ".glb" "a." "glb" eq_refl eq_refl eq_refl eq_refl).
Defined.

Lemma filter_step_by_parts_witness :
  @filter_step Demo.platform (Demo.args None) {[ "000-001" ]}
    (@discover Demo.platform (Demo.args None))
  `sublist_of`
  @filter_step Demo.platform (Demo.args None) {[ "000-001"; "000-002" ]}
    (@discover Demo.platform (Demo.args None)).
Proof.
  destruct (@filter_step_by_parts Demo.platform (Demo.args None)
              {[ "000-001" ]} {[ "000-001"; "000-002" ]} [] []
              (@discover Demo.platform (Demo.args None))) as [_ Hmono].
  apply Hmono; set_solver.
Defined.

End BatchMoreExamples.

(** * [run_convert] *)

Section RunConvertFacts.
Import Convert RunConvert RunSpec.
Context `{Framework}.

Lemma adds_ret {A} Q P (a : A) : adds Q P (r_ret a).
Proof.
  intros w r w' HQ [= <- <-]. split; [done|]. exists []. by rewrite app_nil_r.
Qed.

Lemma adds_raise {A} Q P e : adds Q P (@raise _ A e).
Proof.
  intros w r w' HQ [= <- <-]. split; [done|]. exists []. by rewrite app_nil_r.
Qed.

Lemma adds_bind {A B} Q P (m : R A) (k : A → R B) :
  adds Q P m → (∀ a, adds Q P (k a)) → adds Q P (r_bind m k).
Proof.
  intros Hm Hk w r w' HQ Hrun. unfold r_bind in Hrun.
  destruct (m w) as [[a|e] w1] eqn:Hmw.
  - destruct (Hm _ _ _ HQ Hmw) as (HQ1 & new1 & Heff1 & HP1).
    destruct (Hk a _ _ _ HQ1 Hrun) as (HQ2 & new2 & Heff2 & HP2).
    split; [done|]. exists (new1 ++ new2).
    rewrite Heff2, Heff1, app_assoc. split; [done | by apply Forall_app].
  - injection Hrun as <- <-. by apply (Hm _ _ _ HQ Hmw).
Qed.

Lemma adds_note Q P ev : P ev → adds Q P (note ev).
Proof.
  intros HP w r w' HQ [= <- <-]. split; [done|]. exists [ev]. split; [done|].
  by apply Forall_singleton.
Qed.

Lemma adds_framework_call {A} (Q : Callable → Prop) P
    (f : World Callable Sim → result Fault A * World Callable Sim) :
  (∀ v, Q (builtins_print v) → Q (builtins_print (f v).2)) →
  adds Q P (framework_call f).
Proof.
  intros Hf w r w' HQ Hrun. unfold framework_call in Hrun.
  specialize (Hf (framework_view w) HQ).
  destruct (f (framework_view w)) as [[a|x] v]; injection Hrun as <- <-;
    (split; [done|]); exists []; by rewrite app_nil_r.
Qed.

Lemma adds_rc_print (Q : Callable → Prop) P text :
  (∀ p, Q p → P (Printed p text)) →
  (∀ p v, Q (builtins_print v) → Q (builtins_print (write p text v).2)) →
  adds Q P (rc_print text).
Proof.
  intros HP Hw w r w' HQ Hrun. unfold rc_print in Hrun. cbn zeta in Hrun.
  revert Hrun. unfold mbind, R_bind.
  apply (adds_bind Q P); [by apply adds_note, HP | intros _ | done].
  apply adds_framework_call. intros v. apply Hw.
Qed.

(** The body of [run_convert], step by step. *)
Lemma adds_run_convert_body (Q : Callable → Prop) P args_cli (mesh_path dest_path : string)
    (w0 : World Callable Process) :
  (∀ p text, Q p → P (Printed p text)) →
  (∀ cfg, P (PrintedDict cfg)) →
  (∀ cfg a b c,
      converter_request args_cli mesh_path dest_path w0 (Converted cfg a b c) →
      P (Converted cfg a b c)) →
  (∀ p text v, Q (builtins_print v) → Q (builtins_print (write p text v).2)) →
  (∀ cfg v, Q (builtins_print v) → Q (builtins_print (print_dict cfg v).2)) →
  (∀ cfg a b c v, Q (builtins_print v) →
                  Q (builtins_print (MeshConverterMAD3D cfg a b c v).2)) →
  ∀ r w', Q (builtins_print w0) →
          run_convert_body args_cli mesh_path dest_path w0 = (r, w') →
          Q (builtins_print w') ∧
          ∃ new, effects (host w') = effects (host w0) ++ new ∧ Forall P new.
Proof.
  intros HPp HPd HPc Hw Hd Hc r w' HQ. unfold run_convert_body. cbv zeta.
  replace (if negb (isabs mesh_path) then abspath mesh_path else mesh_path)
    with (absolute mesh_path) by (unfold absolute; by destruct (isabs mesh_path)).
  replace (if negb (isabs dest_path) then abspath dest_path else dest_path)
    with (absolute dest_path) by (unfold absolute; by destruct (isabs dest_path)).
  destruct (check_file_path (absolute mesh_path) (framework_view w0)) eqn:Hcheck;
    cbn [negb].
  - intros Hrun.
    match type of Hrun with
    | ?m w0 = _ => cut (adds Q P m); [intros Ha; exact (Ha _ _ _ HQ Hrun)|]
    end.
    clear Hrun.
    unfold mbind, R_bind.
    assert (∀ text, adds Q P (rc_print text)) as Hprint.
    { intros text. apply adds_rc_print; [intros p; apply HPp | intros p v; apply Hw]. }
    assert (P (Converted
                 {| mass_props := mass args_cli;
                    rigid_props := match mass args_cli with Some _ => Some () | None => None end;
                    collision_enabled :=
                      negb (String.eqb (collision_approximation args_cli) "none");
                    asset_path := absolute mesh_path;
                    force_usd_conversion := true;
                    usd_dir := dirname (absolute dest_path);
                    usd_file_name := basename (absolute dest_path);
                    cfg_make_instanceable := make_instanceable args_cli;
                    cfg_collision_approximation := collision_approximation args_cli |}
                 MAX_LEN ENV_SIZE GRID_SIZE)) as HPconv.
    { apply HPc. simpl. split_and!; try done.
      - by destruct (mass args_cli).
      - destruct (String.eqb_spec (collision_approximation args_cli) "none") as [-> | Hne];
          simpl; [split; [done | by intros []] | done]. }
    destruct (mass args_cli) as [m|];
      repeat first
        [ apply adds_bind; [|intros ?]
        | apply Hprint
        | apply adds_note; first [apply HPd | exact HPconv]
        | apply adds_framework_call; intros ?; first [apply Hd | apply Hc] ].
  - intros [= <- <-]. split; [done|]. exists []. by rewrite app_nil_r.
Qed.

End RunConvertFacts.

Section RunConvertProperties.
Import Spec Convert RunConvert RunSpec.
Context `{Framework}.

(** X13.  What [run_convert] asks of the converter.  A mesh path that
    [check_file_path] refuses, once made absolute, ends [run_convert] with
    the error of the invalid mesh path, carrying the absolute path, before
    anything is printed or converted.  Otherwise every request to the
    converter is for the absolute mesh path, which passed the check, with the
    destination split into its directory and its file name, with
    [force_usd_conversion] set, with the mass of the options and a rigid body
    exactly when there is a mass, with collisions enabled exactly when the
    approximation is not ["none"], and with the sizes 8, 20 and 20. *)
Theorem run_convert_requests args_cli (mesh_path dest_path : string)
    (w w' : World Callable Process) r :
  run_convert_body args_cli mesh_path dest_path w = (r, w') →
  (check_file_path (absolute mesh_path) (framework_view w) = false →
   r = Raise (InvalidMeshFilePath (absolute mesh_path)) ∧ w' = w) ∧
  ∃ new,
    effects (host w') = effects (host w) ++ new ∧
    Forall (converter_request args_cli mesh_path dest_path w) new.
Proof.
  intros Hrun. split.
  - intros Hcheck. unfold run_convert_body in Hrun. cbv zeta in Hrun.
    replace (if negb (isabs mesh_path) then abspath mesh_path else mesh_path)
      with (absolute mesh_path) in Hrun
      by (unfold absolute; by destruct (isabs mesh_path)).
    rewrite Hcheck in Hrun. by injection Hrun as <- <-.
  - destruct (adds_run_convert_body (fun _ : Callable => True)
                (converter_request args_cli mesh_path dest_path w)
                args_cli mesh_path dest_path w) with (r := r) (w' := w')
      as [_ Hnew]; done.
Qed.

Lemma call_adds (tq : Callable) text :
  keeps_print →
  adds (fun p => p = tq) (printed_by tq)
       (note (Printed tq text);; framework_call (write tq text)).
Proof.
  intros (Hw & _ & _). unfold mbind, R_bind.
  apply adds_bind; [by apply adds_note | intros _].
  apply adds_framework_call. intros v <-. apply Hw.
Qed.

Lemma run_convert_body_adds (tq : Callable) args_cli (mesh_path dest_path : string) :
  keeps_print →
  adds (fun p => p = tq) (printed_by tq) (run_convert_body args_cli mesh_path dest_path).
Proof.
  intros (Hw & Hd & Hc) w r w' HQ Hrun.
  apply (adds_run_convert_body (fun p => p = tq) (printed_by tq)
           args_cli mesh_path dest_path w) with (r := r); [| | | | | | done | done].
  - by intros p text ->.
  - done.
  - done.
  - intros p text v <-. apply Hw.
  - intros cfg v <-. apply Hd.
  - intros cfg a b c v <-. apply Hc.
Qed.

Lemma convert_all_adds args_cli sep relpath_ join_ split_tail_ glob_ (tq : Callable)
    text_of args (jobs : list string) :
  keeps_print →
  ∀ (w w' : World Callable Process) r started,
    builtins_print w = tq →
    @convert_all
      (platform_of args_cli sep relpath_ join_ split_tail_ glob_ tq text_of)
      args jobs w = (r, w', started) →
    builtins_print w' = tq ∧
    ∃ new, effects (host w') = effects (host w) ++ new ∧ Forall (printed_by tq) new.
Proof.
  intros Hkeep.
  set (pf := platform_of args_cli sep relpath_ join_ split_tail_ glob_ tq text_of).
  induction jobs as [|job jobs IH]; intros w w' r started HQ; cbn [convert_all].
  - intros [= <- <- <-]. split; [done|]. exists []. by rewrite app_nil_r.
  - change (@run_convert pf) with (run_convert_body args_cli).
    destruct (run_convert_body args_cli job (@dest_path_of pf args job) w)
      as [r1 w1] eqn:Hrun.
    destruct (run_convert_body_adds tq _ _ _ Hkeep _ _ _ HQ Hrun)
      as (HQ1 & new1 & Heff1 & HP1).
    destruct r1 as [[]|f].
    + destruct (@convert_all pf args jobs w1) as [[r2 w2] started2] eqn:Hall.
      intros [= <- <- <-].
      destruct (IH _ _ _ _ HQ1 Hall) as (HQ2 & new2 & Heff2 & HP2).
      split; [done|]. exists (new1 ++ new2).
      rewrite Heff2, Heff1, app_assoc. split; [done | by apply Forall_app].
    + intros [= <- <- <-]. split; [done|]. by exists new1.
Qed.

(** X14.  While the batch runs, everything is printed through
    [tqdm.write].  With [run_convert] as the conversion, and as long as the
    framework does not rebind [builtins.print] itself, every line printed
    during the runner, the report of the number of files and each line of
    each [run_convert], is printed by [tqdm.write], whether the batch ends
    normally or with an exception. *)
Theorem batch_prints_through_tqdm_write args_cli sep relpath_ join_ split_tail_ glob_
    (tq : Callable) text_of args (jobs : list string)
    (st : @State (platform_of args_cli sep relpath_ join_ split_tail_ glob_ tq text_of)) :
  keeps_print →
  ∃ new,
    effects (host (world (run args jobs st).2))
    = effects (host (world st)) ++ new ∧
    Forall (printed_by tq) new.
Proof.
  intros Hkeep.
  set (pf := platform_of args_cli sep relpath_ join_ split_tail_ glob_ tq text_of) in *.
  rewrite (@run_unfold pf). cbn zeta.
  destruct (@call pf (@tqdm_write pf) (NumberOfFilesToConvert (length jobs)) _)
    as [r0 w2] eqn:Hcall.
  destruct (call_adds tq (text_of (NumberOfFilesToConvert (length jobs))) Hkeep
              (Build_World Callable Process tq (host (@world pf st))) r0 w2
              eq_refl Hcall) as (HQ2 & new0 & Heff0 & HP0).
  destruct r0 as [[]|f].
  - destruct (@convert_all pf args jobs w2) as [[r w3] started] eqn:Hall.
    destruct (convert_all_adds _ _ _ _ _ _ _ _ _ _ Hkeep _ _ _ _ HQ2 Hall)
      as (_ & new & Heff & HP).
    exists (new0 ++ new). simpl. rewrite Heff, Heff0, app_assoc.
    split; [done | by apply Forall_app].
  - by exists new0.
Qed.

End RunConvertProperties.

Section RunConvertExamples.
Import Spec Convert RunConvert RunSpec.

Lemma run_convert_requests_witness :
  @run_convert_body DemoRun.framework DemoRun.options "a/missing.glb" "out/a.usd"
    DemoRun.start
  = (Raise (@InvalidMeshFilePath DemoRun.framework "/cwd/a/missing.glb"), DemoRun.start).
Proof.
  destruct (@run_convert_requests DemoRun.framework DemoRun.options
              "a/missing.glb" "out/a.usd" DemoRun.start
              (@run_convert_body DemoRun.framework DemoRun.options
                 "a/missing.glb" "out/a.usd" DemoRun.start).2
              (@run_convert_body DemoRun.framework DemoRun.options
                 "a/missing.glb" "out/a.usd" DemoRun.start).1 eq_refl)
    as [Hbad _].
  destruct (Hbad eq_refl) as [Hr Hw].
  rewrite (surjective_pairing (run_convert_body _ _ _ _)). by rewrite Hr, Hw.
Defined.

Lemma batch_prints_through_tqdm_write_witness :
  ∃ new,
    effects (host (world (@run DemoRun.platform (Demo.args None)
                            ["/in/000-001/a.glb"; "/in/000-002/b.obj"]
                            DemoRun.initial).2))
    = new ∧
    Forall (@printed_by DemoRun.framework 1%nat) new.
Proof.
  destruct (@batch_prints_through_tqdm_write DemoRun.framework DemoRun.options
              "/"%char Demo.demo_relpath (fun a b => a +:+ "/" +:+ b)
              Demo.demo_split_tail Demo.demo_glob 1%nat DemoRun.text_of
              (Demo.args None) ["/in/000-001/a.glb"; "/in/000-002/b.obj"]
              DemoRun.initial) as (new & Heff & HP).
  - by split_and!.
  - exists new. split; [exact Heff | exact HP].
Defined.

End RunConvertExamples.

(** * The range and the filter together *)

Section Selection.
Import Spec More Convert.
Context `{Platform}.

(** X15.  Which files a range selects.  When the specification expands to
    a non-empty list, let its two sides, cut at the first [..], be parsed by
    [split_prefix_num] to the prefix [p], the numbers [n1] and [n2] and the
    widths [w1] and [w2].  Then [n1 < n2], and the job list holds exactly
    the discovered files whose first path segment is [p] followed by some
    [i] with [n1 <= i < n2], zero-padded to [max(w1, w2)] digits.  A file
    under the directory numbered [n2], the right endpoint, is not in the job
    list, and neither is one under a directory that writes a number of the
    range with another number of digits. *)
Theorem range_selects_padded_names args (spec : string) (names meshes : list string) :
  expand_range spec = Ok names → names ≠ [] →
  ∃ l r p n1 w1 n2 w2,
    first_cut ".." spec l r ∧
    split_prefix_num l = Ok (p, Some n1, w1) ∧
    split_prefix_num r = Ok (p, Some n2, w2) ∧
    n1 < n2 ∧
    (∀ file,
        file ∈ filter_step args (list_to_set names) meshes ↔
        file ∈ meshes ∧
        ∃ i, n1 ≤ i < n2 ∧ top_of args file = p +:+ zero_pad i (w1 `max` w2)) ∧
    (∀ file,
        top_of args file = p +:+ zero_pad n2 (w1 `max` w2) →
        file ∉ filter_step args (list_to_set names) meshes).
Proof.
  intros Hok Hne.
  destruct (expand_range_parts _ _ Hok)
    as (l & r & p & n1 & w1 & n2 & w2 & Hcut & Hl & Hr & Hn & Hw & Hb & ->).
  exists l, r, p, n1, w1, n2, w2.
  assert (n1 < n2) as Hlt.
  { destruct (decide (n1 < n2)); [done|]. by rewrite seqZ_nil in Hne by lia. }
  set (width := (w1 `max` w2)%nat) in *.
  assert (∀ file,
    file ∈ filter_step args
             (list_to_set ((fun i => p +:+ zero_pad i width) <$> seqZ n1 (n2 - n1)))
             meshes ↔
    file ∈ meshes ∧ ∃ i, n1 ≤ i < n2 ∧ top_of args file = p +:+ zero_pad i width)
    as Hfiles.
  { intros file. unfold filter_step. rewrite decide_True.
    - rewrite filter_allowed_filter, list_elem_of_filter, elem_of_list_to_set,
        list_elem_of_fmap.
      setoid_rewrite elem_of_seqZ. split.
      + intros [(i & Htop & Hi) Hin]. split; [done|]. exists i. split; [lia | done].
      + intros [Hin (i & Hi & Htop)]. split; [|done]. exists i. split; [done | lia].
    - intros Hempty. apply Hne.
      destruct (seqZ n1 (n2 - n1)) as [|i l0]; [done|]. exfalso.
      apply (not_elem_of_empty (C := gset string) (p +:+ zero_pad i width)).
      rewrite <- Hempty, fmap_cons, elem_of_list_to_set. apply list_elem_of_here. }
  split_and!; [done | done | done | done | done |].
  intros file Htop Hin. apply Hfiles in Hin as (_ & i & Hi & Htop').
  rewrite Htop in Htop'. apply (inj (String.app p)) in Htop'.
  destruct (zero_pad_exact i width Hw) as (_ & _ & _ & Hvi); [lia|].
  destruct (zero_pad_exact n2 width Hw) as (_ & _ & _ & Hv2); [lia|].
  rewrite Htop' in Hv2. lia.
Qed.

End Selection.

Section SelectionExamples.
Import Spec More Convert.

Lemma range_selects_padded_names_witness :
  ∃ l r p n1 w1 n2 w2,
    first_cut ".." "000-001..000-003" l r ∧
    split_prefix_num l = Ok (p, Some n1, w1) ∧
    split_prefix_num r = Ok (p, Some n2, w2) ∧
    n1 < n2 ∧
    ("/in/000-002/b.obj"
       ∈ @filter_step Demo.platform (Demo.args None)
           (list_to_set ["000-001"; "000-002"])
           (@discover Demo.platform (Demo.args None)) ↔
     "/in/000-002/b.obj" ∈ @discover Demo.platform (Demo.args None) ∧
     ∃ i, n1 ≤ i < n2 ∧
          @top_of Demo.platform (Demo.args None) "/in/000-002/b.obj"
          = p +:+ zero_pad i (w1 `max` w2)).
Proof.
  destruct (@range_selects_padded_names Demo.platform (Demo.args None)
              "000-001..000-003" ["000-001"; "000-002"]
              (@discover Demo.platform (Demo.args None)) eq_refl ltac:(done))
    as (l & r & p & n1 & w1 & n2 & w2 & Hcut & Hl & Hr & Hlt & Hfiles & _).
  exists l, r, p, n1, w1, n2, w2.
  split_and!; [exact Hcut | exact Hl | exact Hr | exact Hlt | apply Hfiles].
Defined.

End SelectionExamples.
